(** * image-watch: the live-feed client of the Images page

    A shallow embedding of the script of [frontend/src/pages/Images.svelte]
    (the reconnecting WebSocket client and its ordered item buffer), and the
    properties of it that the specification states.

    Modelling choices.
    - JavaScript numbers that the script compares or doubles (timestamps,
      HTTP status codes, the reconnect delay in milliseconds) are integers
      [Z]; every value the script computes on them (500, 1000, 2000, 3000)
      is exact.
    - A text frame is modelled by what [JSON.parse] does on it: it throws a
      [SyntaxError], or it returns an object of the inbound schema
      [{ added?: [[name, timestamp]], removed?: [name] }].
    - The script is single threaded: a run is a list of events (a socket
      emits, a timer expires, a fetch settles), each handled to completion.
      Timers and outstanding fetches are kept in the host part of the
      state; any pending one may come next, so that what holds of every run
      of the model holds of every timing of the page.
    - The functions the page takes from its context ([token],
      [removeAuthToken], [verifyFrontendHash]) and the [WebSocket]
      constructor return normally; calls of them are counted. *)

From stdpp Require Import gmap strings list sorting.

(** ** Items and deltas *)

Record Item := mkItem { name : string; timestamp : Z }.

Global Instance Item_eq_dec : EqDecision Item.
Proof. solve_decision. Defined.

(** The object [JSON.parse] returns for a well-formed frame. An absent
    field is [None] ([undefined] in the script). *)
Record Delta := mkDelta {
  removed : option (list string);
  added : option (list (string * Z))
}.

Definition names (l : list Item) : list string := name <$> l.

(** [a] may stand immediately before [b]: descending timestamps. *)
Definition desc (a b : Item) : Prop := (timestamp a >= timestamp b)%Z.

Global Instance desc_dec a b : Decision (desc a b).
Proof. unfold desc. apply _. Defined.

(** ** The ordered item buffer ([dummy_images]) *)

(** The loop of [insertSorted]:
    [while (i < dummy_images.length && dummy_images[i].timestamp > img.timestamp) i++]
    run on the part of the array from [i] on; the result is how far [i]
    advances. *)
Fixpoint scan (img : Item) (rest : list Item) : nat :=
  match rest with
  | [] => 0%nat
  | x :: rest' =>
      if bool_decide (timestamp x > timestamp img)%Z then S (scan img rest')
      else 0%nat
  end.

(** [dummy_images = [...dummy_images.slice(0, i), img, ...dummy_images.slice(i)]] *)
Definition insertSorted (img : Item) (dummy_images : list Item) : list Item :=
  let i := scan img dummy_images in
  take i dummy_images ++ img :: drop i dummy_images.

(** [if (data.removed) { removedSet = new Set(data.removed);
      dummy_images = dummy_images.filter((img) => !removedSet.has(img.name)) }]
    An array, even an empty one, is truthy; [undefined] is not. *)
Definition apply_removed (r : option (list string)) (dummy_images : list Item)
  : list Item :=
  match r with
  | Some names_removed =>
      let removedSet : gset string := list_to_set names_removed in
      filter (λ img, name img ∉ removedSet) dummy_images
  | None => dummy_images
  end.

(** [for (const [name, timestamp] of data.added ?? []) insertSorted({ name, timestamp })] *)
Definition apply_added (a : option (list (string * Z))) (dummy_images : list Item)
  : list Item :=
  foldl (λ buf '(n, ts), insertSorted (mkItem n ts) buf) dummy_images (default [] a).

(** The buffer after one message: removals, then the additions in order. *)
Definition apply_delta (d : Delta) (dummy_images : list Item) : list Item :=
  apply_added (added d) (apply_removed (removed d) dummy_images).

Definition apply_deltas (ds : list Delta) (dummy_images : list Item) : list Item :=
  foldl (λ buf d, apply_delta d buf) dummy_images ds.

(** ** Exceptions and the script monad *)

Inductive Exception := SyntaxError | TypeError.

(** How a piece of script ends: normally with a value, or by throwing. *)
Inductive Completion (A : Type) :=
  | Normal (a : A)
  | Throw (e : Exception).
Arguments Normal {A} a.
Arguments Throw {A} e.

Definition try_catch {A} (body : Completion A) (handler : Exception → Completion A)
  : Completion A :=
  match body with
  | Normal a => Normal a
  | Throw e => handler e
  end.

(** A text frame, by what [JSON.parse(event.data)] does on it. A frame that
    decodes to something off the schema is outside the model: on such a
    frame the listener can throw a [TypeError] after it has assigned
    [dummy_images] and before [images = dummy_images], or build an item whose
    name or timestamp is no string or number. What is proved of frames is
    proved of frames that do not decode and of frames on the schema. *)
Inductive Frame :=
  | Undecodable
  | Json (d : Delta).

Definition JSON_parse (f : Frame) : Completion Delta :=
  match f with
  | Undecodable => Throw SyntaxError
  | Json d => Normal d
  end.

(** How the [fetch] of the keepalive endpoint settles: a response with a
    status, or a rejection (transport error; [token()] or [fetch] throwing
    inside the [try] ends in the same [catch]). *)
Inductive FetchOutcome :=
  | Response (status : Z)
  | Rejected.

(** ** State *)

(** The variables of the script. [ws] holds the socket built last. *)
Record Page := mkPage {
  images : list Item;
  connected : bool;
  dummy_images : list Item;
  ws : option nat;
  reconnectTimeout : Z;
  connectScheduled : bool
}.

(** The two callbacks the script hands to [setTimeout]. *)
Inductive Callback := ReconnectAttempt | KeepaliveTick.

Record Timer := mkTimer { callback : Callback; delay : Z }.

(** The two [.then] callbacks that wait on a [keepalive()] promise. *)
Inductive Continuation := AfterDisconnect | AfterKeepalive.

Global Instance Callback_eq_dec : EqDecision Callback.
Proof. solve_decision. Defined.
Global Instance Timer_eq_dec : EqDecision Timer.
Proof. solve_decision. Defined.
Global Instance Continuation_eq_dec : EqDecision Continuation.
Proof. solve_decision. Defined.

(** What the browser and the page context hold for the script.
    - [sockets]: how many [WebSocket]s were constructed; socket [id] exists
      when [id < sockets], and keeps the four listeners [connect] gave it:
      the script never removes a listener and never closes a socket;
    - [timers]: the [setTimeout] callbacks not yet run (the script never
      calls [clearTimeout]); [timeouts]: every [setTimeout] call so far;
    - [probes]: the [keepalive()] promises not yet settled, oldest first;
    - the counters: calls of [fetch], [removeAuthToken] and
      [verifyFrontendHash], and exceptions no handler caught. *)
Record Host := mkHost {
  sockets : nat;
  timers : list Timer;
  timeouts : list Timer;
  probes : list Continuation;
  fetches : nat;
  removeAuthToken_calls : nat;
  verifyFrontendHash_calls : nat;
  uncaught : nat
}.

Record World := mkWorld { page : Page; host : Host }.

Definition Script (A : Type) : Type := World → Completion A * World.

Global Instance Script_ret : MRet Script := λ A a w, (Normal a, w).

(** A throw skips the rest; what was assigned before it stays assigned. *)
Global Instance Script_bind : MBind Script := λ A B k m w,
  match m w with
  | (Normal a, w') => k a w'
  | (Throw e, w') => (Throw e, w')
  end.

Definition lift {A} (c : Completion A) : Script A := λ w, (c, w).
Definition read {A} (f : Page → A) : Script A := λ w, (Normal (f (page w)), w).
Definition assign (f : Page → Page) : Script unit :=
  λ w, (Normal tt, mkWorld (f (page w)) (host w)).
Definition effect (f : Host → Host) : Script unit :=
  λ w, (Normal tt, mkWorld (page w) (f (host w))).

Definition set_images v (p : Page) : Page :=
  mkPage v (connected p) (dummy_images p) (ws p) (reconnectTimeout p) (connectScheduled p).
Definition set_connected v (p : Page) : Page :=
  mkPage (images p) v (dummy_images p) (ws p) (reconnectTimeout p) (connectScheduled p).
Definition set_dummy_images v (p : Page) : Page :=
  mkPage (images p) (connected p) v (ws p) (reconnectTimeout p) (connectScheduled p).
Definition set_ws v (p : Page) : Page :=
  mkPage (images p) (connected p) (dummy_images p) v (reconnectTimeout p) (connectScheduled p).
Definition set_reconnectTimeout v (p : Page) : Page :=
  mkPage (images p) (connected p) (dummy_images p) (ws p) v (connectScheduled p).
Definition set_connectScheduled v (p : Page) : Page :=
  mkPage (images p) (connected p) (dummy_images p) (ws p) (reconnectTimeout p) v.

(** ** What the script calls from its environment *)

(** [setTimeout(cb, ms)]: the callback is queued and never cancelled. *)
Definition setTimeout (cb : Callback) (ms : Z) : Script unit :=
  effect (λ h, mkHost (sockets h) (timers h ++ [mkTimer cb ms])
                 (timeouts h ++ [mkTimer cb ms]) (probes h) (fetches h)
                 (removeAuthToken_calls h) (verifyFrontendHash_calls h) (uncaught h)).

(** [new WebSocket(...)]: the next socket; its index is returned. *)
Definition new_WebSocket : Script nat := λ w,
  let h := host w in
  (Normal (sockets h),
   mkWorld (page w)
     (mkHost (S (sockets h)) (timers h) (timeouts h) (probes h) (fetches h)
        (removeAuthToken_calls h) (verifyFrontendHash_calls h) (uncaught h))).

Definition removeAuthToken : Script unit :=
  effect (λ h, mkHost (sockets h) (timers h) (timeouts h) (probes h) (fetches h)
                 (S (removeAuthToken_calls h)) (verifyFrontendHash_calls h) (uncaught h)).

Definition verifyFrontendHash : Script unit :=
  effect (λ h, mkHost (sockets h) (timers h) (timeouts h) (probes h) (fetches h)
                 (removeAuthToken_calls h) (S (verifyFrontendHash_calls h)) (uncaught h)).

(** ** The script *)

Definition originalReconnectTimeout : Z := 500.
Definition maxReconnectTimeout : Z := 3000.
Definition keepaliveInterval : Z := 60000.

(** [keepalive()] up to its [await]: one [fetch] of [/backend/keepalive]
    is issued; [k] is the [.then] callback the caller puts on the promise. *)
Definition keepalive (k : Continuation) : Script unit :=
  effect (λ h, mkHost (sockets h) (timers h) (timeouts h) (probes h ++ [k])
                 (S (fetches h)) (removeAuthToken_calls h)
                 (verifyFrontendHash_calls h) (uncaught h)).

(** [keepalive()] from its [await] on: the value the promise resolves to,
    [response.status], or [null] from the [catch]. *)
Definition keepalive_result (o : FetchOutcome) : Completion (option Z) :=
  try_catch
    (match o with
     | Response status => Normal (Some status)
     | Rejected => Throw TypeError
     end)
    (λ _, Normal None).

(** [ws = new WebSocket(...)], then the four [addEventListener] calls: the
    listeners are the same closures over the page for every socket, see
    [listener]. *)
Definition connect : Script unit :=
  id ← new_WebSocket;
  assign (set_ws (Some id)).

Definition scheduleReconnect : Script unit :=
  scheduled ← read connectScheduled;
  if scheduled : bool then mret tt
  else
    assign (set_connectScheduled true);;
    ms ← read reconnectTimeout;
    setTimeout ReconnectAttempt ms;;
    assign (set_reconnectTimeout (Z.min (ms * 2) maxReconnectTimeout)).

Definition scheduleKeepalive : Script unit :=
  c ← read connected;
  if c : bool then setTimeout KeepaliveTick keepaliveInterval else mret tt.

Definition closeAndErrorHandler : Script unit :=
  assign (set_connected false);;
  keepalive AfterDisconnect.

Definition on_open : Script unit :=
  assign (set_connected true);;
  assign (set_dummy_images []);;
  assign (set_reconnectTimeout originalReconnectTimeout);;
  verifyFrontendHash;;
  scheduleKeepalive.

Definition on_message (f : Frame) : Script unit :=
  data ← lift (JSON_parse f);
  buf ← read dummy_images;
  assign (set_dummy_images (apply_removed (removed data) buf));;
  buf ← read dummy_images;
  assign (set_dummy_images (apply_added (added data) buf));;
  buf ← read dummy_images;
  assign (set_images buf).

(** The callbacks given to [setTimeout]. *)
Definition timer_callback (cb : Callback) : Script unit :=
  match cb with
  | ReconnectAttempt => assign (set_connectScheduled false);; connect
  | KeepaliveTick => keepalive AfterKeepalive
  end.

(** The callbacks given to [keepalive().then]. *)
Definition continuation (k : Continuation) (result : option Z) : Script unit :=
  match k with
  | AfterDisconnect =>
      if bool_decide (result = Some 401%Z) then removeAuthToken
      else scheduleReconnect
  | AfterKeepalive =>
      if bool_decide (result = Some 401%Z) then removeAuthToken
      else scheduleKeepalive
  end.

(** ** Events *)

Inductive SocketEvent :=
  | open
  | close
  | error
  | message (f : Frame).

Definition listener (e : SocketEvent) : Script unit :=
  match e with
  | open => on_open
  | close => closeAndErrorHandler
  | error => closeAndErrorHandler
  | message f => on_message f
  end.

Inductive Event :=
  | SocketEmits (id : nat) (e : SocketEvent)
  | TimerExpires (i : nat)
  | FetchSettles (i : nat) (o : FetchOutcome).

(** The browser runs a callback to its end; an exception it lets escape
    is reported and the page goes on. *)
Definition deliver (h : Script unit) (w : World) : World :=
  match h w with
  | (Normal _, w') => w'
  | (Throw _, w') =>
      let h' := host w' in
      mkWorld (page w')
        (mkHost (sockets h') (timers h') (timeouts h') (probes h') (fetches h')
           (removeAuthToken_calls h') (verifyFrontendHash_calls h')
           (S (uncaught h')))
  end.

Definition take_timer (i : nat) (w : World) : World :=
  let h := host w in
  mkWorld (page w)
    (mkHost (sockets h) (delete i (timers h)) (timeouts h) (probes h) (fetches h)
       (removeAuthToken_calls h) (verifyFrontendHash_calls h) (uncaught h)).

Definition take_probe (i : nat) (w : World) : World :=
  let h := host w in
  mkWorld (page w)
    (mkHost (sockets h) (timers h) (timeouts h) (delete i (probes h)) (fetches h)
       (removeAuthToken_calls h) (verifyFrontendHash_calls h) (uncaught h)).

(** One event. An event that cannot happen (a socket never built, no such
    pending timer or fetch) changes nothing. *)
Definition dispatch (w : World) (ev : Event) : World :=
  match ev with
  | SocketEmits id e =>
      if bool_decide (id < sockets (host w))%nat then deliver (listener e) w
      else w
  | TimerExpires i =>
      match timers (host w) !! i with
      | Some t => deliver (timer_callback (callback t)) (take_timer i w)
      | None => w
      end
  | FetchSettles i o =>
      match probes (host w) !! i with
      | Some k =>
          deliver (result ← lift (keepalive_result o); continuation k result)
            (take_probe i w)
      | None => w
      end
  end.

Definition run (w : World) (evs : list Event) : World := foldl dispatch w evs.

(** The page before its script has run. *)
Definition blank : World :=
  mkWorld (mkPage [] false [] None originalReconnectTimeout false)
          (mkHost 0 [] [] [] 0 0 0 0).

(** The script ends with [connect()]. *)
Definition start : World := deliver connect blank.

Definition reachable (w : World) : Prop := ∃ evs, w = run start evs.

(** ** Scenarios and vocabulary of the properties *)

(** A [close] or an [error] event: both run [closeAndErrorHandler]. *)
Definition is_disconnect (e : SocketEvent) : Prop := e = close ∨ e = error.


Inductive Liveness := Authorized | Unauthorized | Unknown.

(** The outcome of a probe in the words of the specification: status 200 is
    [Authorized], status 401 is [Unauthorized], any other status or a
    transport error is [Unknown]. The script has no such type: [keepalive]
    returns the status or [null], and its callers compare with 401. *)
Definition liveness (o : FetchOutcome) : Liveness :=
  match o with
  | Response status =>
      if bool_decide (status = 200%Z) then Authorized
      else if bool_decide (status = 401%Z) then Unauthorized
      else Unknown
  | Rejected => Unknown
  end.

(** The timer holds the callback that reconnects. *)
Definition is_reconnect (t : Timer) : Prop := callback t = ReconnectAttempt.

Global Instance is_reconnect_dec t : Decision (is_reconnect t).
Proof. unfold is_reconnect. apply _. Defined.

(** The reconnect timers among a list of timers. *)
Definition reconnects (l : list Timer) : list Timer := filter is_reconnect l.

(** The probe's answer is not a 401: the script goes on to reconnect. *)
Definition proceeds (o : FetchOutcome) : Prop := o ≠ Response 401.

Global Instance FetchOutcome_eq_dec : EqDecision FetchOutcome.
Proof. solve_decision. Defined.

(** The socket [ws] holds. *)
Definition current_socket (w : World) : nat := default 0%nat (ws (page w)).

(** The [keepalive()] promise created last. *)
Definition last_probe (w : World) : nat := pred (length (probes (host w))).

(** The current socket closes, and the probe this starts settles with [o]. *)
Definition disconnect (o : FetchOutcome) (w : World) : World :=
  let w1 := dispatch w (SocketEmits (current_socket w) close) in
  dispatch w1 (FetchSettles (last_probe w1) o).

(** A disconnect, after which the pending reconnect timer expires: the next
    connection attempt is made. In a list of these every attempt fails. *)
Definition retry (w : World) (o : FetchOutcome) : World :=
  let w2 := disconnect o w in
  match list_find is_reconnect (timers (host w2)) with
  | Some (i, _) => dispatch w2 (TimerExpires i)
  | None => w2
  end.

(** The event is an [open] delivered to its listener. *)
Definition is_open (ev : Event) : bool :=
  match ev with
  | SocketEmits _ open => true
  | _ => false
  end.

(** The delays of the reconnects scheduled so far, oldest first. *)
Definition reconnect_delays (w : World) : list Z :=
  delay <$> reconnects (timeouts (host w)).

(** The reconnect delay in the words of the specification:
    [min(base * 2^k, max)]. *)
Definition backoff (k : nat) : Z :=
  Z.min (originalReconnectTimeout * 2 ^ Z.of_nat k) maxReconnectTimeout.

(** [connectScheduled] says whether a reconnect timer is pending, and there
    is never more than one. *)
Definition guard_inv (w : World) : Prop :=
  length (reconnects (timers (host w))) =
    if connectScheduled (page w) then 1%nat else 0%nat.

(** [ws] is the socket built last. *)
Definition ws_inv (w : World) : Prop :=
  ∃ n, sockets (host w) = S n ∧ ws (page w) = Some n.

(** Both the rendered list and the buffer behind it are sorted. *)
Definition both_sorted (w : World) : Prop :=
  Sorted desc (images (page w)) ∧ Sorted desc (dummy_images (page w)).

(** The items [{ name, timestamp }] the listener builds from [data.added]. *)
Definition added_items (d : Delta) : list Item :=
  (λ '(n, ts), mkItem n ts) <$> default [] (added d).

(** Every name the delta adds is new: the added names differ from each
    other, and none of them is left in the buffer once the removals of the
    same delta are done. *)
Definition adds_new_names (d : Delta) (buf : list Item) : Prop :=
  NoDup (names (added_items d)) ∧
  Forall (λ n, n ∉ names (apply_removed (removed d) buf)) (names (added_items d)).

Global Instance adds_new_names_dec d buf : Decision (adds_new_names d buf).
Proof. unfold adds_new_names. apply _. Defined.

(** The same for a sequence of deltas, each looked at when it arrives. *)
Fixpoint add_new_names (ds : list Delta) (buf : list Item) : Prop :=
  match ds with
  | [] => True
  | d :: ds' => adds_new_names d buf ∧ add_new_names ds' (apply_delta d buf)
  end.

Global Instance add_new_names_dec ds : ∀ buf, Decision (add_new_names ds buf).
Proof. induction ds; simpl; apply _. Defined.

(** ** The rest of the front end *)

Global Instance Completion_ret : MRet Completion := λ A a, Normal a.

Global Instance Completion_bind : MBind Completion := λ A B k c,
  match c with
  | Normal a => k a
  | Throw e => Throw e
  end.

(** [grid_columns] of the Images page: the number of columns of the grid,
    from [device.type] and [device.orientation]. *)
Definition grid_columns (type orientation : string) : Z :=
  if decide (type = "mobile") then
    if decide (orientation = "landscape") then 2 else 1
  else if decide (type = "tablet") then
    if decide (orientation = "landscape") then 3 else 2
  else 3.

(** A fetch that settles with the answer 401. *)
Definition answers_401 (ev : Event) : bool :=
  match ev with
  | FetchSettles _ (Response status) => bool_decide (status = 401%Z)
  | _ => false
  end.

Definition is_keepalive (t : Timer) : Prop := callback t = KeepaliveTick.

Global Instance is_keepalive_dec t : Decision (is_keepalive t).
Proof. unfold is_keepalive. apply _. Defined.

(** The delays [scheduleReconnect] can reach from 500 by doubling under the
    cap of 3000. *)
Definition backoff_delay (ms : Z) : Prop :=
  ms = 500%Z ∨ ms = 1000%Z ∨ ms = 2000%Z ∨ ms = 3000%Z.

(** A timer as the script sets them: a keepalive after the keepalive
    interval, a reconnect after a backoff delay. *)
Definition timer_as_set (t : Timer) : Prop :=
  match callback t with
  | KeepaliveTick => delay t = keepaliveInterval
  | ReconnectAttempt => backoff_delay (delay t)
  end.

(** The script of [components/router/Router.svelte]. A route is a string;
    [defaultRoute] starts as [null], and [currentRoute()] is a string or,
    once the router has navigated to a [null] default, [null]. *)
Module Router.

Record State := mkState {
  knownRoutes : list string;
  defaultRoute : option string
}.

Definition initial : State := mkState [] None.

(** What [if (x)] and [x || y] take for true: a string that is not empty. *)
Definition truthy (r : option string) : bool :=
  match r with
  | Some route => negb (String.eqb route "")
  | None => false
  end.

Inductive Result (A : Type) :=
  | Ok (a : A)
  | Error (msg : string).
Arguments Ok {A} a.
Arguments Error {A} msg.

Definition registerRoute (route : string) (st : State) : State :=
  mkState (knownRoutes st ++ [route]) (defaultRoute st).

Definition setDefaultRoute (route : string) (st : State) : Result State :=
  if truthy (defaultRoute st) then Error "Default route already set"
  else Ok (mkState (knownRoutes st) (Some route)).

(** [knownRoutes.find((route) => route === currentRoute()) || defaultRoute] *)
Definition selectedRoute (st : State) (currentRoute : option string)
  : option string :=
  let found := List.find (λ route, bool_decide (Some route = currentRoute))
                 (knownRoutes st) in
  if truthy found then found else defaultRoute st.

(** The effect: [if (selectedRoute !== currentRoute()) navigate(selectedRoute, true)];
    the result is the call of [navigate] it makes, if any. *)
Definition effect (st : State) (currentRoute : option string)
  : option (option string * bool) :=
  if decide (selectedRoute st currentRoute ≠ currentRoute)
  then Some (selectedRoute st currentRoute, true)
  else None.

(** The calls the [Route] components make while the page is built. A call
    of [setDefaultRoute] that throws has assigned nothing. *)
Inductive Call :=
  | RegisterRoute (route : string)
  | SetDefaultRoute (route : string).

Definition call (st : State) (c : Call) : State :=
  match c with
  | RegisterRoute route => registerRoute route st
  | SetDefaultRoute route =>
      match setDefaultRoute route st with
      | Ok st' => st'
      | Error _ => st
      end
  end.

Definition calls (st : State) (cs : list Call) : State := foldl call st cs.

End Router.

(** The script of [App.svelte]: the current route, the auth token and its
    copy in [localStorage], and the entries given to [history.pushState]. *)
Module App.

Record State := mkState {
  currentRoute : option string;
  authToken : option string;
  localStorage : gmap string string;
  pushed : list (option string)
}.

(** The page is loaded at [pathname] with [storage] in [localStorage]. *)
Definition load (storage : gmap string string) (pathname : string) : State :=
  mkState (Some pathname) (storage !! "auth_token") storage [].

Definition navigate (path : option string) (st : State) : State :=
  mkState path (authToken st) (localStorage st) (pushed st ++ [path]).

Definition removeAuthToken (st : State) : State :=
  mkState (currentRoute st) None (delete "auth_token" (localStorage st)) (pushed st).

Definition setAuthToken (token : string) (st : State) : State :=
  navigate (Some "/images")
    (mkState (currentRoute st) (Some token)
       (<["auth_token" := token]> (localStorage st)) (pushed st)).

(** The calls the components make through the context. *)
Inductive Call :=
  | SetAuthToken (token : string)
  | RemoveAuthToken
  | Navigate (path : option string).

Definition call (st : State) (c : Call) : State :=
  match c with
  | SetAuthToken token => setAuthToken token st
  | RemoveAuthToken => removeAuthToken st
  | Navigate path => navigate path st
  end.

Definition calls (st : State) (cs : list Call) : State := foldl call st cs.

(** The router's effect run in the app: [navigate] takes the path and has
    no use for the second argument. *)
Definition route (r : Router.State) (st : State) : State :=
  match Router.effect r (currentRoute st) with
  | Some (path, _) => navigate path st
  | None => st
  end.

End App.

(** The script of [pages/Login.svelte]. *)
Module Login.

(** How the [fetch] of [/backend/login] settles: rejected, or a response
    with a status whose [text()] gives the body or rejects. *)
Inductive LoginFetch :=
  | Rejected
  | Responded (status : Z) (text : option string).

Definition await {A} (settled : option A) : Completion A :=
  match settled with
  | Some a => Normal a
  | None => Throw TypeError
  end.

Definition getToken (o : LoginFetch) : Completion (option string) :=
  try_catch
    (response ← await (match o with
                       | Responded status text => Some (status, text)
                       | Rejected => None
                       end);
     let status := response.1 in
     body ← await response.2;
     if bool_decide (status = 200%Z) then Normal (Some body) else Normal None)
    (λ _, Normal None).

(** [handleLogin], from the moment the fetch settles. *)
Definition handleLogin (o : LoginFetch) (st : App.State) : App.State :=
  match getToken o with
  | Normal (Some token) => App.setAuthToken token st
  | Normal None => st
  | Throw _ => st
  end.

End Login.

(** The script of [components/Image.svelte]. [onMount] runs once, before
    anything else; the observer calls [handleIntersect] only while it
    observes the element; [fetch] is counted and settles later. *)
Module Image.

(** [loadingProp === "lazy" || loadingProp === "eager" ? loadingProp : "eager"] *)
Definition loading (loadingProp : option string) : string :=
  match loadingProp with
  | Some p => if decide (p = "lazy" ∨ p = "eager") then p else "eager"
  | None => "eager"
  end.

(** The value a promise rejects with, as far as [e.status] goes. *)
Record Rejection := mkRejection { status : option Z }.

(** How a load settles: [fetch] rejects, [res.blob()] rejects, or the blob
    comes and [URL.createObjectURL] gives its URL. *)
Inductive Settled :=
  | FetchRejected (e : Rejection)
  | BlobRejected (e : Rejection)
  | Loaded (url : string).

(** [observer]: [None] before [onMount] has made one, then whether it still
    observes. *)
Record State := mkState {
  src : string;
  imgElement : bool;
  imageSrc : string;
  observer : option bool;
  fetches : nat;
  loads : nat;
  revoked : list string;
  removeToken_calls : nat;
  throws : nat
}.

Definition initial (src : string) (imgElement : bool) : State :=
  mkState src imgElement "" None 0 0 [] 0 0.

Inductive Event :=
  | Intersect (entries : list bool)
  | Settles (s : Settled)
  | Destroy.

(** [loadImage] up to its first [await]. The outer [token] is [true]. *)
Definition loadImage (st : State) : State :=
  if String.eqb (src st) "" then st
  else mkState (src st) (imgElement st) (imageSrc st) (observer st)
         (S (fetches st)) (S (loads st)) (revoked st) (removeToken_calls st)
         (throws st).

Definition disconnect (st : State) : State :=
  mkState (src st) (imgElement st) (imageSrc st)
    (match observer st with Some _ => Some false | None => None end)
    (fetches st) (loads st) (revoked st) (removeToken_calls st) (throws st).

(** [entries[0].isIntersecting] throws on an empty array. *)
Definition handleIntersect (entries : list bool) (st : State) : State :=
  match entries with
  | [] => mkState (src st) (imgElement st) (imageSrc st) (observer st)
            (fetches st) (loads st) (revoked st) (removeToken_calls st)
            (S (throws st))
  | isIntersecting :: _ =>
      if isIntersecting then disconnect (loadImage st) else st
  end.

(** [loadImage] from its [await]s on, with the [catch]. *)
Definition settle (s : Settled) (st : State) : State :=
  let st := mkState (src st) (imgElement st) (imageSrc st) (observer st)
              (fetches st) (pred (loads st)) (revoked st)
              (removeToken_calls st) (throws st) in
  match s with
  | Loaded url =>
      mkState (src st) (imgElement st) url (observer st) (fetches st)
        (loads st) (revoked st) (removeToken_calls st) (throws st)
  | FetchRejected e | BlobRejected e =>
      if bool_decide (status e = Some 401%Z) then
        mkState (src st) (imgElement st) (imageSrc st) (observer st)
          (fetches st) (loads st) (revoked st) (S (removeToken_calls st))
          (throws st)
      else st
  end.

Definition onMount (st : State) : State :=
  if imgElement st then
    mkState (src st) (imgElement st) (imageSrc st) (Some true) (fetches st)
      (loads st) (revoked st) (removeToken_calls st) (throws st)
  else st.

Definition onDestroy (st : State) : State :=
  let st := disconnect st in
  if String.eqb (imageSrc st) "" then st
  else mkState (src st) (imgElement st) (imageSrc st) (observer st)
         (fetches st) (loads st) (revoked st ++ [imageSrc st])
         (removeToken_calls st) (throws st).

Definition dispatch (st : State) (ev : Event) : State :=
  match ev with
  | Intersect entries =>
      match observer st with
      | Some true => handleIntersect entries st
      | _ => st
      end
  | Settles s => if bool_decide (0 < loads st)%nat then settle s st else st
  | Destroy => onDestroy st
  end.

Definition run (st : State) (evs : list Event) : State := foldl dispatch st evs.

(** The component once mounted. *)
Definition mounted (src : string) (imgElement : bool) : State :=
  onMount (initial src imgElement).

(** A load that is rejected with a value whose [status] is 401. *)
Definition rejects_401 (ev : Event) : bool :=
  match ev with
  | Settles (FetchRejected e) | Settles (BlobRejected e) =>
      bool_decide (status e = Some 401%Z)
  | _ => false
  end.

End Image.

(** * Properties *)

(** ** The ordered item buffer *)

Section ItemStore.
Implicit Types (img x : Item) (l buf : list Item) (d : Delta).

Global Instance desc_trans : Transitive desc.
Proof. unfold desc. intros a b c. lia. Qed.

(** [insertSorted] as a recursion on the buffer: the new item passes every
    leading item with a strictly greater timestamp. *)
Lemma insertSorted_nil img : insertSorted img [] = [img].
Proof. reflexivity. Qed.

Lemma insertSorted_cons img x l :
  insertSorted img (x :: l) =
    if bool_decide (timestamp x > timestamp img)%Z then x :: insertSorted img l
    else img :: x :: l.
Proof. unfold insertSorted. simpl. by case_bool_decide. Qed.

Lemma scan_le img l : (scan img l ≤ length l)%nat.
Proof. induction l; simpl; [|case_bool_decide]; lia. Qed.

Lemma insertSorted_perm img l : insertSorted img l ≡ₚ img :: l.
Proof.
  unfold insertSorted.
  rewrite <- Permutation_middle. by rewrite take_drop.
Qed.

Lemma elem_of_insertSorted img l x : x ∈ insertSorted img l ↔ x = img ∨ x ∈ l.
Proof. rewrite insertSorted_perm. apply elem_of_cons. Qed.

Lemma HdRel_insertSorted x img l :
  desc x img → HdRel desc x l → HdRel desc x (insertSorted img l).
Proof.
  intros Hx Hl. destruct l as [|y l]; [by constructor|].
  rewrite insertSorted_cons. inversion_clear Hl.
  case_bool_decide; by constructor.
Qed.

Lemma Sorted_insertSorted img l :
  Sorted desc l → Sorted desc (insertSorted img l).
Proof.
  induction 1 as [|x l Hl IH Hhd]; [repeat constructor|].
  rewrite insertSorted_cons. case_bool_decide as Hgt.
  - constructor; [done|]. apply HdRel_insertSorted; [unfold desc; lia|done].
  - repeat constructor; [done..|]. unfold desc. lia.
Qed.

Lemma Sorted_desc_filter (P : Item → Prop) `{∀ x, Decision (P x)} l :
  Sorted desc l → Sorted desc (filter P l).
Proof.
  intros Hl. apply StronglySorted_Sorted.
  apply Sorted_StronglySorted in Hl; [|apply _].
  induction Hl as [|x l Hl IH Hx]; [constructor|].
  rewrite filter_cons. case_decide; [|done].
  constructor; [done|].
  apply Forall_forall. intros y [_ Hy]%list_elem_of_filter.
  by eapply Forall_forall in Hx.
Qed.

Lemma Sorted_apply_removed r l :
  Sorted desc l → Sorted desc (apply_removed r l).
Proof. destruct r; simpl; [apply Sorted_desc_filter|done]. Qed.

Lemma Sorted_apply_added a l :
  Sorted desc l → Sorted desc (apply_added a l).
Proof.
  unfold apply_added. generalize (default [] a). intros adds.
  revert l. induction adds as [|[n ts] adds IH]; intros l Hl; simpl; [done|].
  apply IH. by apply Sorted_insertSorted.
Qed.

Lemma Sorted_apply_delta d l :
  Sorted desc l → Sorted desc (apply_delta d l).
Proof. intros. by apply Sorted_apply_added, Sorted_apply_removed. Qed.

Lemma Sorted_apply_deltas ds l :
  Sorted desc l → Sorted desc (apply_deltas ds l).
Proof.
  revert l. induction ds as [|d ds IH]; intros l Hl; simpl; [done|].
  apply IH. by apply Sorted_apply_delta.
Qed.

(** [Sorted desc] read on positions: each item's timestamp is at least
    that of the item right after it. *)
Lemma Sorted_desc_adjacent l :
  Sorted desc l ↔
  ∀ i a b, l !! i = Some a → l !! S i = Some b → (timestamp a >= timestamp b)%Z.
Proof.
  split.
  - induction 1 as [|x l Hl IH Hhd]; intros i a b Ha Hb; [done|].
    destruct i as [|i]; simpl in *.
    + destruct l as [|y l]; simplify_eq/=. by inversion_clear Hhd.
    + by eapply IH.
  - induction l as [|x l IH]; intros Hadj; [constructor|].
    constructor.
    + apply IH. intros i a b Ha Hb. by apply (Hadj (S i)).
    + destruct l as [|y l]; constructor. by apply (Hadj 0%nat).
Qed.

(** What one delta leaves in the buffer: the kept items and the added ones. *)
Lemma apply_added_perm a l :
  apply_added a l ≡ₚ ((λ '(n, ts), mkItem n ts) <$> default [] a) ++ l.
Proof.
  unfold apply_added. generalize (default [] a). intros adds.
  revert l. induction adds as [|[n ts] adds IH]; intros l; simpl; [done|].
  rewrite IH, insertSorted_perm. by rewrite Permutation_middle.
Qed.

Lemma elem_of_apply_removed r l x :
  x ∈ apply_removed r l ↔ x ∈ l ∧ name x ∉ default [] r.
Proof.
  destruct r as [rs|]; simpl.
  - rewrite list_elem_of_filter, elem_of_list_to_set. tauto.
  - rewrite elem_of_nil. tauto.
Qed.

Lemma NoDup_names_apply_removed r l :
  NoDup (names l) → NoDup (names (apply_removed r l)).
Proof.
  destruct r as [rs|]; simpl; [|done]. unfold names.
  induction l as [|x l IH]; simpl; [done|].
  rewrite NoDup_cons. intros [Hx Hl].
  rewrite filter_cons. case_decide; [|by apply IH].
  simpl. rewrite NoDup_cons. split; [|by apply IH].
  rewrite list_elem_of_fmap in *. intros (y & Hy & Hin%list_elem_of_filter).
  apply Hx. exists y. tauto.
Qed.

Lemma apply_delta_perm d buf :
  apply_delta d buf ≡ₚ added_items d ++ apply_removed (removed d) buf.
Proof. apply apply_added_perm. Qed.

(** What is in the buffer after a delta: the added items, and the items
    that were there and whose name the delta does not remove. *)
Lemma elem_of_apply_delta d buf x :
  x ∈ apply_delta d buf ↔
  x ∈ added_items d ∨ (x ∈ buf ∧ name x ∉ default [] (removed d)).
Proof.
  rewrite apply_delta_perm, elem_of_app, elem_of_apply_removed. tauto.
Qed.

Lemma NoDup_names_apply_delta d buf :
  NoDup (names buf) → adds_new_names d buf → NoDup (names (apply_delta d buf)).
Proof.
  intros Hbuf [Hadd Hnew]. unfold names in *.
  rewrite apply_delta_perm, fmap_app. apply NoDup_app.
  split; [done|]. split; [|by apply NoDup_names_apply_removed].
  intros n Hn. by eapply Forall_forall in Hnew.
Qed.

Lemma NoDup_names_apply_deltas ds : ∀ buf,
  NoDup (names buf) → add_new_names ds buf → NoDup (names (apply_deltas ds buf)).
Proof.
  induction ds as [|d ds IH]; intros buf Hbuf Hnew; simpl in *; [done|].
  destruct Hnew as [Hd Hds]. apply IH; [|done].
  by apply NoDup_names_apply_delta.
Qed.

End ItemStore.

(** ** Stepping the page *)

(** Unfolds the script down to the fields of the world it is run on. *)
Ltac script_simpl :=
  cbv [deliver listener on_open on_message closeAndErrorHandler
       scheduleReconnect scheduleKeepalive connect keepalive keepalive_result
       timer_callback continuation setTimeout new_WebSocket removeAuthToken
       verifyFrontendHash take_timer take_probe try_catch JSON_parse
       mbind mret Script_bind Script_ret lift read assign effect
       set_images set_connected set_dummy_images set_ws set_reconnectTimeout
       set_connectScheduled page host images connected dummy_images ws
       reconnectTimeout connectScheduled sockets timers timeouts probes
       fetches removeAuthToken_calls verifyFrontendHash_calls uncaught
       callback delay] in *.

Ltac destruct_world w :=
  let p := fresh "p" in
  let h := fresh "h" in
  destruct w as [p h]; destruct p, h.

Lemma run_snoc w evs ev : run w (evs ++ [ev]) = dispatch (run w evs) ev.
Proof. unfold run. by rewrite foldl_app. Qed.

Lemma run_app w evs evs' : run w (evs ++ evs') = run (run w evs) evs'.
Proof. unfold run. by rewrite foldl_app. Qed.

Lemma reachable_start : reachable start.
Proof. by exists []. Qed.

Lemma reachable_dispatch w ev : reachable w → reachable (dispatch w ev).
Proof. intros [evs ->]. exists (evs ++ [ev]). by rewrite run_snoc. Qed.

Lemma reachable_run w evs : reachable w → reachable (run w evs).
Proof. intros [evs0 ->]. exists (evs0 ++ evs). by rewrite run_app. Qed.

(** Splits a step of the page into the cases of [dispatch], with the world
    taken apart and the script unfolded. *)
Ltac dispatch_cases_by skip w ev :=
  let id := fresh "id" in
  let e := fresh "e" in
  let i := fresh "i" in
  let o := fresh "o" in
  let Hi := fresh "Hi" in
  destruct ev as [id e|i|i o]; simpl;
  [ case_bool_decide; [|skip];
    destruct e as [| | |[|?]]; destruct_world w; script_simpl
  | destruct (timers (host w) !! i) as [[[] ?]|] eqn:Hi; [..|skip];
    destruct_world w; script_simpl
  | destruct (probes (host w) !! i) as [[]|] eqn:Hi; [..|skip];
    destruct_world w; destruct o as [?|]; script_simpl;
    try case_bool_decide; script_simpl;
    try match goal with
        | |- context [if ?c then _ else _] => destruct c; script_simpl
        end ].

(** The same, where an event that cannot happen is settled by [done]. *)
Ltac dispatch_cases w ev := dispatch_cases_by ltac:(done) w ev.

(** A property that holds at [start] and that no event breaks holds
    whenever the page is observed. *)
Lemma reachable_ind (P : World → Prop) :
  P start → (∀ w ev, reachable w → P w → P (dispatch w ev)) →
  ∀ w, reachable w → P w.
Proof.
  intros Hstart Hstep w [evs ->].
  induction evs as [|ev evs IH] using rev_ind; [done|].
  rewrite run_snoc. apply Hstep; [by eexists|done].
Qed.

(** ** Lists of timers and of probes *)

Lemma lookup_snoc_length {A} (l : list A) x : (l ++ [x]) !! length l = Some x.
Proof. by rewrite lookup_app_r, Nat.sub_diag. Qed.

Lemma delete_snoc_length {A} (l : list A) x : delete (length l) (l ++ [x]) = l.
Proof. induction l; simpl; by f_equal. Qed.

Lemma lookup_middle_length {A} (l l' : list A) x : (l ++ x :: l') !! length l = Some x.
Proof. by apply list_lookup_middle. Qed.

Lemma delete_middle_length {A} (l l' : list A) x :
  delete (length l) (l ++ x :: l') = l ++ l'.
Proof. induction l; simpl; by f_equal. Qed.

Lemma list_find_snoc_first {A} (P : A → Prop) `{∀ x, Decision (P x)} l x :
  filter P l = [] → P x → list_find P (l ++ [x]) = Some (length l, x).
Proof.
  intros Hl Hx. induction l as [|y l IH]; simpl.
  - by rewrite decide_True.
  - rewrite filter_cons in Hl. case_decide; [done|].
    by rewrite IH.
Qed.

Lemma reconnects_snoc l t :
  reconnects (l ++ [t]) =
    reconnects l ++ (if decide (is_reconnect t) then [t] else []).
Proof. unfold reconnects. rewrite filter_app. f_equal. Qed.

Lemma reconnects_delete l i t :
  l !! i = Some t →
  length (reconnects l) =
    (length (reconnects (delete i l)) + if decide (is_reconnect t) then 1 else 0)%nat.
Proof.
  intros Hi. rewrite <- (take_drop_middle l i t Hi) at 1.
  rewrite delete_take_drop. unfold reconnects.
  rewrite !filter_app, filter_cons. case_decide; rewrite !length_app; simpl; lia.
Qed.

(** ** Events, one equation each *)

Lemma dispatch_socket w id e :
  (id < sockets (host w))%nat →
  dispatch w (SocketEmits id e) = deliver (listener e) w.
Proof. intros. simpl. by rewrite bool_decide_true. Qed.

Lemma dispatch_timer w i t :
  timers (host w) !! i = Some t →
  dispatch w (TimerExpires i) = deliver (timer_callback (callback t)) (take_timer i w).
Proof. intros Hi. simpl. by rewrite Hi. Qed.

Lemma dispatch_fetch w i k o :
  probes (host w) !! i = Some k →
  dispatch w (FetchSettles i o) =
    deliver (result ← lift (keepalive_result o); continuation k result)
      (take_probe i w).
Proof. intros Hi. simpl. by rewrite Hi. Qed.

Lemma liveness_Unauthorized o : liveness o = Unauthorized ↔ o = Response 401.
Proof.
  destruct o as [status|]; simpl; [|done].
  repeat case_bool_decide; subst; split; try done; congruence.
Qed.

Lemma liveness_proceeds o : proceeds o → liveness o ≠ Unauthorized.
Proof. unfold proceeds. by rewrite liveness_Unauthorized. Qed.

Lemma keepalive_result_401 o :
  keepalive_result o = Normal (Some 401%Z) ↔ liveness o = Unauthorized.
Proof.
  rewrite liveness_Unauthorized.
  destruct o; unfold keepalive_result, try_catch; split; congruence.
Qed.

(** What the [open] listener does to the variables of the page. *)
Lemma open_page w id :
  (id < sockets (host w))%nat →
  page (dispatch w (SocketEmits id open)) =
    mkPage (images (page w)) true [] (ws (page w)) originalReconnectTimeout
      (connectScheduled (page w)).
Proof. intros. rewrite dispatch_socket by done. destruct_world w. by script_simpl. Qed.


(** What a [close] or [error] listener does. *)
Lemma disconnect_event_effect w id e :
  (id < sockets (host w))%nat → is_disconnect e →
  dispatch w (SocketEmits id e) =
    mkWorld (set_connected false (page w))
      (mkHost (sockets (host w)) (timers (host w)) (timeouts (host w))
         (probes (host w) ++ [AfterDisconnect]) (S (fetches (host w)))
         (removeAuthToken_calls (host w)) (verifyFrontendHash_calls (host w))
         (uncaught (host w))).
Proof.
  intros Hid He. rewrite dispatch_socket by done.
  destruct_world w. by destruct He as [-> | ->].
Qed.

(** What the callback on the probe of a disconnect does. *)
Lemma settle_after_disconnect w i o :
  probes (host w) !! i = Some AfterDisconnect →
  dispatch w (FetchSettles i o) =
    deliver (match liveness o with
             | Unauthorized => removeAuthToken
             | Authorized | Unknown => scheduleReconnect
             end) (take_probe i w).
Proof.
  intros Hi. erewrite dispatch_fetch by done.
  destruct o as [status|]; [|done]. simpl.
  unfold deliver, mbind, Script_bind, lift, keepalive_result, try_catch. simpl.
  repeat case_bool_decide; simplify_eq; done.
Qed.

(** What the callback on the probe of a keepalive does. *)
Lemma settle_after_keepalive w i o :
  probes (host w) !! i = Some AfterKeepalive →
  dispatch w (FetchSettles i o) =
    deliver (match liveness o with
             | Unauthorized => removeAuthToken
             | Authorized | Unknown => scheduleKeepalive
             end) (take_probe i w).
Proof.
  intros Hi. erewrite dispatch_fetch by done.
  destruct o as [status|]; [|done]. simpl.
  unfold deliver, mbind, Script_bind, lift, keepalive_result, try_catch. simpl.
  repeat case_bool_decide; simplify_eq; done.
Qed.

(** What the reconnect timer's callback does. *)
Lemma reconnect_expiry_effect w i ms :
  timers (host w) !! i = Some (mkTimer ReconnectAttempt ms) →
  dispatch w (TimerExpires i) =
    mkWorld
      (mkPage (images (page w)) (connected (page w)) (dummy_images (page w))
         (Some (sockets (host w))) (reconnectTimeout (page w)) false)
      (mkHost (S (sockets (host w))) (delete i (timers (host w)))
         (timeouts (host w)) (probes (host w)) (fetches (host w))
         (removeAuthToken_calls (host w)) (verifyFrontendHash_calls (host w))
         (uncaught (host w))).
Proof. intros Hi. erewrite dispatch_timer by done. by destruct_world w. Qed.

(** What the keepalive timer's callback does. *)
Lemma keepalive_expiry_effect w i ms :
  timers (host w) !! i = Some (mkTimer KeepaliveTick ms) →
  dispatch w (TimerExpires i) =
    mkWorld (page w)
      (mkHost (sockets (host w)) (delete i (timers (host w)))
         (timeouts (host w)) (probes (host w) ++ [AfterKeepalive])
         (S (fetches (host w))) (removeAuthToken_calls (host w))
         (verifyFrontendHash_calls (host w)) (uncaught (host w))).
Proof. intros Hi. erewrite dispatch_timer by done. by destruct_world w. Qed.

(** New sockets are built by the reconnect timer and by nothing else. *)
Lemma sockets_dispatch w ev :
  sockets (host (dispatch w ev)) =
    match ev with
    | TimerExpires i =>
        match timers (host w) !! i with
        | Some (mkTimer ReconnectAttempt _) => S (sockets (host w))
        | _ => sockets (host w)
        end
    | _ => sockets (host w)
    end.
Proof.
  destruct ev as [id e|i|i o]; simpl.
  - case_bool_decide; [|done].
    destruct e as [| | |[|d]]; destruct_world w; by script_simpl.
  - destruct (timers (host w) !! i) as [[[] ms]|]; [..|done];
      destruct_world w; by script_simpl.
  - destruct (probes (host w) !! i) as [k|]; [|done].
    destruct_world w. destruct k, o as [status|]; script_simpl;
      try case_bool_decide; script_simpl; try done;
      destruct connectScheduled0, connected0; by script_simpl.
Qed.



(** ** Invariants of the page *)

Lemma both_sorted_dispatch w ev : both_sorted w → both_sorted (dispatch w ev).
Proof.
  unfold both_sorted. intros [Himg Hbuf].
  destruct ev as [id e|i|i o]; simpl.
  - case_bool_decide; [|done].
    destruct e as [| | |[|d]]; destruct_world w; script_simpl; try done.
    split; by apply Sorted_apply_added, Sorted_apply_removed.
  - destruct (timers (host w) !! i) as [[[] ms]|]; [..|done];
      destruct_world w; by script_simpl.
  - destruct (probes (host w) !! i) as [[]|]; [..|done];
      destruct_world w; destruct o; script_simpl;
      repeat match goal with |- context [if ?c then _ else _] => destruct c end;
      by script_simpl.
Qed.

Lemma both_sorted_reachable w : reachable w → both_sorted w.
Proof.
  apply reachable_ind; [|intros; by apply both_sorted_dispatch].
  split; constructor.
Qed.

Lemma guard_inv_dispatch w ev : guard_inv w → guard_inv (dispatch w ev).
Proof.
  unfold guard_inv. intros Hinv.
  destruct ev as [id e|i|i o]; simpl.
  - case_bool_decide; [|done].
    destruct e as [| | |[|d]]; destruct_world w; script_simpl; try done.
    rewrite reconnects_snoc, length_app. simpl. lia.
  - destruct (timers (host w) !! i) as [[cb ms]|] eqn:Hi; [|done].
    destruct_world w; script_simpl.
    apply reconnects_delete in Hi. rewrite Hi in Hinv. clear Hi.
    destruct cb; script_simpl; simpl in *.
    + destruct connectScheduled0; lia.
    + lia.
  - destruct (probes (host w) !! i) as [k|]; [|done].
    destruct_world w. destruct k, o as [status|]; script_simpl;
      try case_bool_decide; script_simpl; try done;
      destruct connectScheduled0, connected0; script_simpl; try done;
      rewrite reconnects_snoc, length_app; simpl; lia.
Qed.

Lemma ws_inv_dispatch w ev : ws_inv w → ws_inv (dispatch w ev).
Proof.
  unfold ws_inv. intros (n & Hn & Hws).
  destruct ev as [id e|i|i o]; simpl.
  - case_bool_decide; [|by eauto].
    destruct e as [| | |[|d]]; destruct_world w; script_simpl; by eauto.
  - destruct (timers (host w) !! i) as [[[] ms]|]; [..|by eauto];
      destruct_world w; script_simpl; simplify_eq; by eauto.
  - destruct (probes (host w) !! i) as [k|]; [|by eauto].
    destruct_world w. destruct k, o as [status|]; script_simpl;
      try case_bool_decide; script_simpl; eauto;
      destruct connectScheduled0, connected0; script_simpl; by eauto.
Qed.

Lemma guard_inv_reachable w : reachable w → guard_inv w.
Proof. apply reachable_ind; [done|]. intros. by apply guard_inv_dispatch. Qed.

Lemma ws_inv_reachable w : reachable w → ws_inv w.
Proof.
  apply reachable_ind; [by exists 0%nat|]. intros. by apply ws_inv_dispatch.
Qed.

(** ** Disconnects and retries *)

Lemma backoff_0 : backoff 0 = originalReconnectTimeout.
Proof. reflexivity. Qed.

Lemma backoff_S k : Z.min (backoff k * 2) maxReconnectTimeout = backoff (S k).
Proof.
  unfold backoff, originalReconnectTimeout, maxReconnectTimeout.
  rewrite Nat2Z.inj_succ, Z.pow_succ_r by lia.
  assert (0 < 2 ^ Z.of_nat k)%Z by (apply Z.pow_pos_nonneg; lia).
  lia.
Qed.

Lemma disconnect_effect o w :
  ws_inv w → connectScheduled (page w) = false → proceeds o →
  let w' := disconnect o w in
  timers (host w') =
    timers (host w) ++ [mkTimer ReconnectAttempt (reconnectTimeout (page w))] ∧
  timeouts (host w') =
    timeouts (host w) ++ [mkTimer ReconnectAttempt (reconnectTimeout (page w))] ∧
  reconnectTimeout (page w') =
    Z.min (reconnectTimeout (page w) * 2) maxReconnectTimeout ∧
  connectScheduled (page w') = true.
Proof.
  intros (n & Hn & Hws) Hcs Ho. unfold disconnect, current_socket.
  rewrite Hws. simpl default.
  rewrite dispatch_socket by lia.
  destruct_world w. script_simpl. unfold last_probe. script_simpl.
  rewrite length_app. simpl length.
  replace (pred (length probes0 + 1)) with (length probes0) by lia.
  erewrite dispatch_fetch by (script_simpl; apply lookup_snoc_length).
  script_simpl. rewrite delete_snoc_length. subst connectScheduled0.
  destruct o as [status|]; script_simpl; [|done].
  rewrite bool_decide_false; [done|]. intros [= ->]. by apply Ho.
Qed.

(** What a disconnect schedules, behind the guard. *)
Lemma disconnect_timeouts o w :
  ws_inv w → proceeds o →
  timeouts (host (disconnect o w)) =
    timeouts (host w) ++
      (if connectScheduled (page w) then []
       else [mkTimer ReconnectAttempt (reconnectTimeout (page w))]).
Proof.
  intros (n & Hn & Hws) Ho. unfold disconnect, current_socket.
  rewrite Hws. simpl default.
  rewrite disconnect_event_effect by (lia || by left).
  rewrite settle_after_disconnect
    by (unfold last_probe; simpl; rewrite length_app, Nat.add_1_r;
        apply lookup_snoc_length).
  apply liveness_proceeds in Ho.
  destruct_world w. destruct (liveness o); [|done|];
    destruct connectScheduled0; script_simpl; by rewrite ?app_nil_r.
Qed.

Lemma retry_effect o w :
  ws_inv w → guard_inv w → connectScheduled (page w) = false → proceeds o →
  let w' := retry w o in
  timeouts (host w') =
    timeouts (host w) ++ [mkTimer ReconnectAttempt (reconnectTimeout (page w))] ∧
  reconnectTimeout (page w') =
    Z.min (reconnectTimeout (page w) * 2) maxReconnectTimeout ∧
  connectScheduled (page w') = false ∧
  sockets (host w') = S (sockets (host w)).
Proof.
  intros Hws Hg Hcs Ho.
  destruct (disconnect_effect o w Hws Hcs Ho) as (Htm & Hto & Hrt & Hcs').
  unfold retry. rewrite Htm.
  unfold guard_inv in Hg. rewrite Hcs in Hg.
  apply length_zero_iff_nil in Hg.
  rewrite (list_find_snoc_first _ _ _ Hg) by done.
  erewrite dispatch_timer by (rewrite Htm; apply lookup_snoc_length).
  assert (sockets (host (disconnect o w)) = sockets (host w)) as Hs.
  { destruct Hws as (n & Hn & Hws). unfold disconnect, current_socket.
    rewrite Hws. simpl default. rewrite dispatch_socket by lia.
    destruct_world w. script_simpl. unfold last_probe. script_simpl.
    rewrite length_app. simpl length.
    replace (pred (length probes0 + 1)) with (length probes0) by lia.
    erewrite dispatch_fetch by (script_simpl; apply lookup_snoc_length).
    script_simpl. destruct o, connectScheduled0; script_simpl;
      try case_bool_decide; by script_simpl. }
  destruct (disconnect o w) as [[] []]. script_simpl. by subst.
Qed.

Lemma disconnect_inv o w :
  (ws_inv w → ws_inv (disconnect o w)) ∧ (guard_inv w → guard_inv (disconnect o w)).
Proof.
  unfold disconnect.
  split; intros; by do 2 (apply ws_inv_dispatch || apply guard_inv_dispatch).
Qed.

Lemma retry_inv o w :
  (ws_inv w → ws_inv (retry w o)) ∧ (guard_inv w → guard_inv (retry w o)).
Proof.
  destruct (disconnect_inv o w) as [Hws Hg]. unfold retry.
  destruct (list_find _ _) as [[i t]|]; split; intros; auto.
  - by apply ws_inv_dispatch, Hws.
  - by apply guard_inv_dispatch, Hg.
Qed.

(** After [length os] failed attempts in a row, counted from a world whose
    delay is [backoff j], the delay is [backoff (j + length os)]. *)
Lemma retries_effect os : ∀ w j,
  ws_inv w → guard_inv w → connectScheduled (page w) = false →
  reconnectTimeout (page w) = backoff j → Forall proceeds os →
  let w' := foldl retry w os in
  ws_inv w' ∧ guard_inv w' ∧ connectScheduled (page w') = false ∧
  reconnectTimeout (page w') = backoff (j + length os).
Proof.
  induction os as [|o os IH]; intros w j Hws Hg Hcs Hrt Hos; simpl.
  - by rewrite Nat.add_0_r.
  - apply Forall_cons in Hos as [Ho Hos].
    destruct (retry_effect o w Hws Hg Hcs Ho) as (_ & Hrt' & Hcs' & _).
    rewrite Hrt, backoff_S in Hrt'.
    replace (j + S (length os))%nat with (S j + length os)%nat by lia.
    apply IH; try done; by apply retry_inv.
Qed.

Lemma next_delay os o w j :
  ws_inv w → guard_inv w → connectScheduled (page w) = false →
  reconnectTimeout (page w) = backoff j → Forall proceeds os → proceeds o →
  last (timeouts (host (disconnect o (foldl retry w os)))) =
    Some (mkTimer ReconnectAttempt (backoff (j + length os))).
Proof.
  intros Hws Hg Hcs Hrt Hos Ho.
  destruct (retries_effect os w j Hws Hg Hcs Hrt Hos) as (Hws' & _ & Hcs' & Hrt').
  destruct (disconnect_effect o _ Hws' Hcs' Ho) as (_ & -> & _).
  by rewrite last_snoc, Hrt'.
Qed.

(** Two disconnect events, both probes settled before the timer expires. *)
Lemma two_disconnects_effect w id1 id2 e1 e2 o1 o2 :
  (id1 < sockets (host w))%nat → (id2 < sockets (host w))%nat →
  is_disconnect e1 → is_disconnect e2 → proceeds o1 → proceeds o2 →
  connectScheduled (page w) = false →
  let p := length (probes (host w)) in
  let t := mkTimer ReconnectAttempt (reconnectTimeout (page w)) in
  ∀ w',
    w' = run w [SocketEmits id1 e1; SocketEmits id2 e2;
                FetchSettles p o1; FetchSettles p o2] ∨
    w' = run w [SocketEmits id1 e1; FetchSettles p o1;
                SocketEmits id2 e2; FetchSettles p o2] →
    timers (host w') = timers (host w) ++ [t] ∧
    timeouts (host w') = timeouts (host w) ++ [t] ∧
    sockets (host w') = sockets (host w) ∧
    fetches (host w') = S (S (fetches (host w))).
Proof.
  intros Hid1 Hid2 He1 He2 Ho1 Ho2 Hcs p t w' Hw'.
  assert (liveness o1 ≠ Unauthorized) as Hl1 by by rewrite liveness_Unauthorized.
  assert (liveness o2 ≠ Unauthorized) as Hl2 by by rewrite liveness_Unauthorized.
  subst p t. destruct_world w. script_simpl. subst connectScheduled0.
  destruct Hw' as [-> | ->]; cbv [run foldl].
  - rewrite (disconnect_event_effect _ id1) by done. script_simpl.
    rewrite (disconnect_event_effect _ id2) by done. script_simpl.
    rewrite <- app_assoc. simpl app.
    rewrite (settle_after_disconnect _ _ o1) by apply lookup_middle_length.
    unfold take_probe. script_simpl. rewrite delete_middle_length.
    destruct (liveness o1); [|done|]; script_simpl;
      (rewrite settle_after_disconnect by apply lookup_snoc_length);
      destruct (liveness o2); done.
  - rewrite (disconnect_event_effect _ id1) by done. script_simpl.
    rewrite (settle_after_disconnect _ _ o1) by apply lookup_snoc_length.
    unfold take_probe. script_simpl. rewrite delete_snoc_length.
    destruct (liveness o1); [|done|]; script_simpl;
      (rewrite (disconnect_event_effect _ id2) by done); script_simpl;
      (rewrite settle_after_disconnect by apply lookup_snoc_length);
      destruct (liveness o2); done.
Qed.

(** Apart from [open], an event leaves the backoff as it is or schedules one
    reconnect after the current delay and doubles the delay under the cap. *)
Lemma backoff_step w ev m :
  is_open ev = false → reconnectTimeout (page w) = backoff m →
  (reconnect_delays (dispatch w ev) = reconnect_delays w ∧
   reconnectTimeout (page (dispatch w ev)) = backoff m) ∨
  (reconnect_delays (dispatch w ev) = reconnect_delays w ++ [backoff m] ∧
   reconnectTimeout (page (dispatch w ev)) = backoff (S m)).
Proof.
  intros Hev Hrt. unfold reconnect_delays.
  dispatch_cases_by ltac:(by left) w ev; try done; subst;
    rewrite ?reconnects_snoc; simpl; rewrite ?app_nil_r, ?fmap_app;
    rewrite ?backoff_S; simpl; auto.
Qed.

(** Through events without an [open] the reconnects scheduled are scheduled
    after the delays of the backoff, one after the other, whatever the order
    of the events. *)
Lemma backoff_run evs : ∀ w m,
  forallb (λ ev, negb (is_open ev)) evs = true →
  reconnectTimeout (page w) = backoff m →
  ∃ n, reconnect_delays (run w evs) =
         reconnect_delays w ++ (backoff <$> seq m n) ∧
       reconnectTimeout (page (run w evs)) = backoff (m + n).
Proof.
  induction evs as [|ev evs IH]; intros w m Hevs Hrt.
  - exists 0%nat. simpl. by rewrite app_nil_r, Nat.add_0_r.
  - simpl in Hevs. apply andb_prop in Hevs as [Hev%negb_true_iff Hevs].
    destruct (backoff_step w ev m Hev Hrt) as [[Hd Hrt']|[Hd Hrt']].
    + destruct (IH _ _ Hevs Hrt') as (n & Hn & Hrtn).
      exists n. simpl. by rewrite Hn, Hd.
    + destruct (IH _ _ Hevs Hrt') as (n & Hn & Hrtn).
      exists (S n). simpl. rewrite Hn, Hd, Hrtn, <- app_assoc. simpl.
      split; [done|]. f_equal. lia.
Qed.

Lemma open_reconnect_delays w id :
  reconnect_delays (dispatch w (SocketEmits id open)) = reconnect_delays w.
Proof.
  unfold reconnect_delays. simpl. case_bool_decide; [|done].
  destruct_world w. script_simpl. rewrite reconnects_snoc. simpl.
  by rewrite app_nil_r.
Qed.

(** ** The tests of the repository, run on the model

    The scenarios of [frontend/src/pages/__tests__/Images.test.js]. *)

(** "connects to the WebSocket and verifies the frontend hash on open" *)
Example test_open :
  let w := run start [SocketEmits 0 open] in
  connected (page start) = false ∧ connected (page w) = true ∧
  verifyFrontendHash_calls (host w) = 1%nat ∧ sockets (host w) = 1%nat.
Proof. vm_compute. repeat split. Qed.

(** "renders added images in timestamp order and removes items" *)
Example test_order_and_removal :
  let w1 := run start [SocketEmits 0 (message (Json
              (mkDelta None (Some [("newest.jpg", 3%Z); ("older.jpg", 1%Z)]))))] in
  let w2 := run w1 [SocketEmits 0 (message (Json
              (mkDelta (Some ["newest.jpg"]) None)))] in
  names (images (page w1)) = ["newest.jpg"; "older.jpg"] ∧
  names (images (page w2)) = ["older.jpg"].
Proof. vm_compute. repeat split. Qed.

(** "removes the auth token when the backend reports 401 on reconnect" *)
Example test_401 :
  let w := run start [SocketEmits 0 close; FetchSettles 0 (Response 401)] in
  fetches (host w) = 1%nat ∧ removeAuthToken_calls (host w) = 1%nat ∧
  timers (host w) = [] ∧ sockets (host w) = 1%nat.
Proof. vm_compute. repeat split. Qed.

(** "schedules reconnects with growing delays when the socket closes" *)
Example test_growing_delays :
  let w1 := run start [SocketEmits 0 close; FetchSettles 0 (Response 500)] in
  let w2 := run w1 [TimerExpires 0] in
  let w3 := run w2 [SocketEmits 1 error; FetchSettles 0 (Response 500)] in
  delay <$> timeouts (host w1) = [500%Z] ∧
  sockets (host w2) = 2%nat ∧
  fetches (host w3) = 2%nat ∧
  delay <$> timeouts (host w3) = [500%Z; 1000%Z].
Proof. vm_compute. repeat split. Qed.

(** ** Uniqueness of names (C1) *)

(** C1, as the specification states it, fails: the same name added by two
    deltas is in the collection twice. The second addition does not replace
    the first; nothing in [insertSorted] or in the message listener looks
    for the name. *)
Lemma same_name_added_twice :
  let d1 := mkDelta None (Some [("a.jpg", 1%Z)]) in
  let d2 := mkDelta None (Some [("a.jpg", 5%Z)]) in
  apply_deltas [d1; d2] [] = [mkItem "a.jpg" 5; mkItem "a.jpg" 1] ∧
  ¬ NoDup (names (apply_deltas [d1; d2] [])) ∧
  ¬ NoDup (names (images (page (run start
      [SocketEmits 0 open; SocketEmits 0 (message (Json d1));
       SocketEmits 0 (message (Json d2))])))).
Proof.
  cbv zeta. split; [reflexivity|].
  split; intros H; vm_compute in H;
    apply NoDup_cons in H as [H _]; apply H; by left.
Qed.

(** C1, amended. Within one delta the removals take effect first and then
    each addition is inserted at its descending-timestamp position: the
    result holds exactly the added items and the items kept. For every
    sequence of deltas in which each delta adds only new names (names that
    differ from each other and are not in the collection once that delta's
    removals are done; a name both in [removed] and in [added] is replaced),
    no two items of the resulting collection share a name. *)
Theorem unique_names_when_additions_are_new
    (ds : list Delta) (d : Delta) (buf : list Item) (x : Item) :
  NoDup (names buf) → Sorted desc buf → add_new_names ds buf →
  NoDup (names (apply_deltas ds buf)) ∧
  Sorted desc (apply_deltas ds buf) ∧
  (x ∈ apply_delta d buf ↔
   x ∈ added_items d ∨ (x ∈ buf ∧ name x ∉ default [] (removed d))).
Proof.
  intros Hbuf Hsorted Hnew. split; [by apply NoDup_names_apply_deltas|].
  split; [by apply Sorted_apply_deltas|apply elem_of_apply_delta].
Qed.

Lemma unique_names_when_additions_are_new_witness :
  let ds := [mkDelta None (Some [("b.jpg", 1%Z); ("a.jpg", 3%Z)]);
             mkDelta (Some ["a.jpg"]) (Some [("a.jpg", 5%Z); ("c.jpg", 2%Z)])] in
  NoDup (names (apply_deltas ds [])) ∧
  names (apply_deltas ds []) = ["a.jpg"; "c.jpg"; "b.jpg"].
Proof.
  cbv zeta. split; [|reflexivity].
  refine (proj1 (unique_names_when_additions_are_new _
    (mkDelta None None) [] (mkItem "a.jpg" 5) _ _ _)).
  - constructor.
  - constructor.
  - apply (bool_decide_unpack _). vm_compute. exact I.
Defined.

(** ** Descending order (C2) *)

(** C2. The collection is sorted by descending timestamp at every
    observation point: after any sequence of deltas applied to the empty
    collection, and, on the page, after any sequence of events, both for the
    rendered list [images] and for the buffer [dummy_images]: of two
    adjacent items the earlier one has a timestamp at least that of the
    later one ([Sorted desc], see [Sorted_desc_adjacent]). The delta
    [{added: [["b.jpg", 1], ["a.jpg", 3]]}] on the empty collection gives
    the order a.jpg, b.jpg. *)
Theorem sorted_at_every_observation (ds : list Delta) (evs : list Event) :
  Sorted desc (apply_deltas ds []) ∧
  Sorted desc (images (page (run start evs))) ∧
  Sorted desc (dummy_images (page (run start evs))) ∧
  names (apply_delta (mkDelta None (Some [("b.jpg", 1%Z); ("a.jpg", 3%Z)])) []) =
    ["a.jpg"; "b.jpg"].
Proof.
  split; [|split; [|split]].
  - apply Sorted_apply_deltas. constructor.
  - apply both_sorted_reachable. by eexists.
  - apply both_sorted_reachable. by eexists.
  - reflexivity.
Qed.

(** ** Backoff (C3) *)

(** C3, as the specification states it, fails in its second part: after a
    successful [open] the delay of the next failure need not be the base.
    Socket 0 fails with [error] and [close]; the probe of the [error]
    brings the reconnect, socket 1, which opens. In the first run the probe
    of the [close] settles after that [open]: it schedules a reconnect
    after 500 ms and doubles the delay, so that the next failure, the
    [close] of socket 1, is scheduled after 1000 ms. In the second run it
    settles before the [open] and its reconnect is pending at the [open]:
    the [close] of socket 1 then schedules nothing. *)
Lemma open_then_failure_not_base :
  let failure := [SocketEmits 1 close; FetchSettles 0 Rejected] in
  let late := run start
    [SocketEmits 0 error; SocketEmits 0 close; FetchSettles 0 Rejected;
     TimerExpires 0; SocketEmits 1 open; FetchSettles 0 Rejected;
     TimerExpires 1] in
  let pending := run start
    [SocketEmits 0 error; SocketEmits 0 close; FetchSettles 0 Rejected;
     TimerExpires 0; FetchSettles 0 Rejected; SocketEmits 1 open] in
  connected (page late) = true ∧ connectScheduled (page late) = false ∧
  last (timeouts (host (run late failure))) =
    Some (mkTimer ReconnectAttempt 1000) ∧
  last (timeouts (host (run late failure))) ≠
    Some (mkTimer ReconnectAttempt 500) ∧
  connected (page pending) = true ∧
  reconnectTimeout (page pending) = 500%Z ∧
  timeouts (host (run pending failure)) = timeouts (host pending).
Proof. vm_compute. repeat split; discriminate. Qed.

(** C3, amended. Capped exponential backoff, base 500 ms, at most 3000 ms.
    Counted from the start of the page, and again from any [open] event,
    and until the next [open]: the reconnects that are scheduled are
    scheduled after 500, 1000, 2000, 3000, 3000, ... ms, the one after [k]
    others after [min(500 * 2^k, 3000)] ms, whatever the order of the
    events; so the disconnect that follows [k] failed reconnects in a row
    (each probe answering anything but 401; counted from an [open], with no
    reconnect pending at that [open]) schedules the next attempt after
    [min(500 * 2^k, 3000)] ms. The [open] listener puts the delay back to
    500 ms whatever it was, so that the first reconnect scheduled after an
    [open], whichever disconnect's probe schedules it, is scheduled after
    500 ms; a disconnect that follows the [open] directly schedules its
    reconnect after 500 ms, or schedules nothing when a reconnect is
    pending. *)
Theorem backoff_growth_and_reset
    (w0 : World) (id : nat) (os : list FetchOutcome) (o : FetchOutcome)
    (evs : list Event) :
  reachable w0 → (id < sockets (host w0))%nat →
  Forall proceeds os → proceeds o →
  forallb (λ ev, negb (is_open ev)) evs = true →
  let k := length os in
  let delay_after (j : nat) := Z.min (500 * 2 ^ Z.of_nat j) 3000 in
  let scheduled_last w := last (timeouts (host w)) in
  scheduled_last (disconnect o (foldl retry start os)) =
    Some (mkTimer ReconnectAttempt (delay_after k)) ∧
  (∃ n, reconnect_delays (run start evs) = delay_after <$> seq 0 n ∧
        reconnectTimeout (page (run start evs)) = delay_after n) ∧
  let w := dispatch w0 (SocketEmits id open) in
  reconnectTimeout (page w) = 500%Z ∧
  (∃ n, reconnect_delays (run w evs) =
          reconnect_delays w0 ++ (delay_after <$> seq 0 n) ∧
        reconnectTimeout (page (run w evs)) = delay_after n) ∧
  timeouts (host (disconnect o w)) =
    timeouts (host w) ++
      (if connectScheduled (page w0) then []
       else [mkTimer ReconnectAttempt 500]) ∧
  (connectScheduled (page w0) = false →
   scheduled_last (disconnect o (foldl retry w os)) =
     Some (mkTimer ReconnectAttempt (delay_after k))).
Proof.
  intros Hw0 Hid Hos Ho Hevs k delay_after scheduled_last.
  subst scheduled_last k delay_after. cbv zeta.
  split; [|split; [|split; [|split; [|split]]]].
  - apply (next_delay os o start 0); try done.
    + apply ws_inv_reachable, reachable_start.
  - destruct (backoff_run evs start 0 Hevs eq_refl) as (n & Hn & Hrt).
    by exists n.
  - by rewrite open_page.
  - destruct (backoff_run evs (dispatch w0 (SocketEmits id open)) 0 Hevs)
      as (n & Hn & Hrt); [by rewrite open_page|].
    exists n. by rewrite <- (open_reconnect_delays w0 id).
  - rewrite disconnect_timeouts; [|by apply ws_inv_dispatch, ws_inv_reachable|done].
    by rewrite open_page.
  - intros Hcs.
    apply (next_delay os o _ 0); try done.
    + by apply ws_inv_dispatch, ws_inv_reachable.
    + by apply guard_inv_dispatch, guard_inv_reachable.
    + by rewrite open_page.
    + by rewrite open_page.
Qed.

Lemma backoff_growth_and_reset_witness :
  last (timeouts (host (disconnect Rejected
    (foldl retry start [Rejected; Response 500; Response 200; Rejected])))) =
    Some (mkTimer ReconnectAttempt 3000) ∧
  reconnectTimeout (page (dispatch
    (run start [SocketEmits 0 close; FetchSettles 0 Rejected; TimerExpires 0])
    (SocketEmits 1 open))) = 500%Z.
Proof.
  pose proof (backoff_growth_and_reset
    (run start [SocketEmits 0 close; FetchSettles 0 Rejected; TimerExpires 0])
    1 [Rejected; Response 500; Response 200; Rejected] Rejected
    [SocketEmits 1 error; SocketEmits 1 close; FetchSettles 1 Rejected;
     TimerExpires 0; FetchSettles 0 Rejected]) as H.
  destruct H as (H1 & _ & H2 & _).
  - apply reachable_run, reachable_start.
  - vm_compute. lia.
  - repeat constructor; discriminate.
  - discriminate.
  - reflexivity.
  - split; [exact H1|exact H2].
Defined.

(** ** One probe for each disconnect event (C4) *)

(** C4, as the specification states it, fails. A connection that drops
    emits [error] and then [close]: the prober is invoked once for each, and
    when both probes answer 401 the termination callback fires twice. And
    when a reconnect is pending already, a disconnect whose probe is not a
    401 schedules none. *)
Lemma one_drop_two_probes :
  let w := run start [SocketEmits 0 error; SocketEmits 0 close;
                      FetchSettles 0 (Response 401); FetchSettles 0 (Response 401)] in
  fetches (host w) = 2%nat ∧ removeAuthToken_calls (host w) = 2%nat ∧
  fetches (host w) ≠ 1%nat ∧ removeAuthToken_calls (host w) ≠ 1%nat ∧
  let w1 := run start [SocketEmits 0 close; FetchSettles 0 Rejected] in
  let w2 := run w1 [SocketEmits 0 close; FetchSettles 0 Rejected] in
  connectScheduled (page w1) = true ∧
  fetches (host w2) = S (fetches (host w1)) ∧
  timeouts (host w2) = timeouts (host w1) ∧
  length (timeouts (host w2)) ≠ S (length (timeouts (host w1))).
Proof. vm_compute. repeat split; discriminate. Qed.

(** C4, amended. For every [close] or [error] event (one drop of the
    connection may deliver both) the liveness prober is invoked exactly
    once, and nothing else is called or scheduled by the listener. When that
    probe settles, no further probe is made; if it reports [Unauthorized]
    the session-termination callback fires exactly once and no timer is
    scheduled; otherwise the callback does not fire, and exactly one
    reconnect is scheduled after the current backoff delay unless a
    reconnect is pending already, in which case nothing is scheduled. *)
Theorem probe_per_disconnect_event
    (w : World) (id : nat) (e : SocketEvent)
    (w2 : World) (i : nat) (o : FetchOutcome) :
  (id < sockets (host w))%nat → is_disconnect e →
  probes (host w2) !! i = Some AfterDisconnect →
  let w1 := dispatch w (SocketEmits id e) in
  let w3 := dispatch w2 (FetchSettles i o) in
  (fetches (host w1) = S (fetches (host w)) ∧
   probes (host w1) = probes (host w) ++ [AfterDisconnect] ∧
   timeouts (host w1) = timeouts (host w) ∧
   removeAuthToken_calls (host w1) = removeAuthToken_calls (host w)) ∧
  fetches (host w3) = fetches (host w2) ∧
  match liveness o with
  | Unauthorized =>
      removeAuthToken_calls (host w3) = S (removeAuthToken_calls (host w2)) ∧
      timeouts (host w3) = timeouts (host w2)
  | Authorized | Unknown =>
      removeAuthToken_calls (host w3) = removeAuthToken_calls (host w2) ∧
      timeouts (host w3) =
        timeouts (host w2) ++
          (if connectScheduled (page w2) then []
           else [mkTimer ReconnectAttempt (reconnectTimeout (page w2))])
  end.
Proof.
  intros Hid He Hi w1 w3. subst w1 w3.
  rewrite disconnect_event_effect by done.
  rewrite settle_after_disconnect by done.
  split; [done|]. destruct_world w2.
  destruct (liveness o); script_simpl; try done;
    destruct connectScheduled0; script_simpl; by rewrite ?app_nil_r.
Qed.

Lemma probe_per_disconnect_event_witness :
  let w1 := dispatch start (SocketEmits 0 error) in
  fetches (host w1) = 1%nat ∧
  timeouts (host (dispatch w1 (FetchSettles 0 (Response 503)))) =
    [mkTimer ReconnectAttempt 500].
Proof.
  pose proof (probe_per_disconnect_event start 0 error
    (dispatch start (SocketEmits 0 error)) 0 (Response 503)) as H.
  destruct H as ((H1 & _) & _ & _ & H2).
  - vm_compute. lia.
  - by right.
  - reflexivity.
  - split; [exact H1|exact H2].
Defined.

(** ** A single pending reconnect (C5) *)

(** C5, as the specification states it, fails. The guard is looked at when
    the probe of a disconnect settles, not when the disconnect event fires.
    Two [close] events, the second one while the reconnect of the first is
    scheduled: its probe settles after that timer has expired, finds no
    reconnect pending and schedules a second one. Two new connection
    attempts result (three sockets in all). The same with the [error] and
    the [close] of one drop, both fired before any timer was set. *)
Lemma late_probe_second_reconnect :
  let first := [SocketEmits 0 close; FetchSettles 0 Rejected] in
  let rest := [SocketEmits 0 close; TimerExpires 0;
               FetchSettles 0 Rejected; TimerExpires 0] in
  connectScheduled (page (run start first)) = true ∧
  sockets (host (run start (first ++ rest))) = 3%nat ∧
  timeouts (host (run start (first ++ rest))) =
    [mkTimer ReconnectAttempt 500; mkTimer ReconnectAttempt 1000] ∧
  sockets (host (run start (first ++ rest))) ≠ S (sockets (host start)) ∧
  sockets (host (run start
    [SocketEmits 0 error; SocketEmits 0 close; FetchSettles 0 Rejected;
     TimerExpires 0; FetchSettles 0 Rejected; TimerExpires 0])) = 3%nat.
Proof. vm_compute. repeat split; discriminate. Qed.

(** C5, amended. At most one reconnect timer is pending at any time, and a
    call of [scheduleReconnect] while one is pending schedules nothing. If
    two [close] or [error] events fire and both their probes settle (not
    401) before the reconnect timer expires, one timer is pending, and its
    expiry makes exactly one new connection attempt and leaves none
    pending. *)
Theorem at_most_one_pending_reconnect
    (evs : list Event) (wa : World)
    (w : World) (id1 id2 : nat) (e1 e2 : SocketEvent) (o1 o2 : FetchOutcome)
    (w' : World) (i : nat) (t' : Timer) :
  reachable w → connectScheduled (page w) = false →
  (id1 < sockets (host w))%nat → (id2 < sockets (host w))%nat →
  is_disconnect e1 → is_disconnect e2 → proceeds o1 → proceeds o2 →
  let p := length (probes (host w)) in
  w' = run w [SocketEmits id1 e1; SocketEmits id2 e2;
              FetchSettles p o1; FetchSettles p o2] ∨
  w' = run w [SocketEmits id1 e1; FetchSettles p o1;
              SocketEmits id2 e2; FetchSettles p o2] →
  timers (host w') !! i = Some t' → is_reconnect t' →
  (length (reconnects (timers (host (run start evs)))) ≤ 1)%nat ∧
  (connectScheduled (page wa) = true → scheduleReconnect wa = (Normal tt, wa)) ∧
  reconnects (timers (host w')) =
    [mkTimer ReconnectAttempt (reconnectTimeout (page w))] ∧
  sockets (host w') = sockets (host w) ∧
  let w'' := dispatch w' (TimerExpires i) in
  sockets (host w'') = S (sockets (host w)) ∧
  reconnects (timers (host w'')) = [] ∧
  connectScheduled (page w'') = false.
Proof.
  intros Hw Hcs Hid1 Hid2 He1 He2 Ho1 Ho2 p Hw' Hi Ht'.
  pose proof (guard_inv_reachable w Hw) as Hg.
  unfold guard_inv in Hg. rewrite Hcs in Hg. apply length_zero_iff_nil in Hg.
  destruct (two_disconnects_effect w id1 id2 e1 e2 o1 o2
              Hid1 Hid2 He1 He2 Ho1 Ho2 Hcs w' Hw') as (Htm & _ & Hs & _).
  assert (reachable w') as Hrw'.
  { destruct Hw' as [-> | ->]; by apply reachable_run. }
  split; [|split; [|split; [|split]]].
  - pose proof (guard_inv_reachable (run start evs)) as H.
    unfold guard_inv in H. rewrite H by by eexists.
    destruct (connectScheduled (page (run start evs))); lia.
  - intros Ha. destruct_world wa. script_simpl. by subst.
  - by rewrite Htm, reconnects_snoc, Hg.
  - done.
  - destruct t' as [cb ms]. unfold is_reconnect in Ht'. simpl in Ht'. subst cb.
    cbv zeta. pose proof (guard_inv_dispatch w' (TimerExpires i)
      (guard_inv_reachable w' Hrw')) as Hg'.
    unfold guard_inv in Hg'.
    rewrite (reconnect_expiry_effect _ _ _ Hi) in Hg' |- *. simpl in *.
    split; [by rewrite Hs|]. split; [by apply length_zero_iff_nil|done].
Qed.

Lemma at_most_one_pending_reconnect_witness :
  let w' := run start [SocketEmits 0 error; SocketEmits 0 close;
                       FetchSettles 0 Rejected; FetchSettles 0 (Response 500)] in
  reconnects (timers (host w')) = [mkTimer ReconnectAttempt 500] ∧
  sockets (host (dispatch w' (TimerExpires 0))) = 2%nat.
Proof.
  pose proof (at_most_one_pending_reconnect [] start start 0 0 error close
    Rejected (Response 500)
    (run start [SocketEmits 0 error; SocketEmits 0 close;
                FetchSettles 0 Rejected; FetchSettles 0 (Response 500)])
    0 (mkTimer ReconnectAttempt 500)) as H.
  destruct H as (_ & _ & H1 & _ & H2 & _).
  - apply reachable_start.
  - reflexivity.
  - vm_compute. lia.
  - vm_compute. lia.
  - by right.
  - by left.
  - discriminate.
  - discriminate.
  - by left.
  - reflexivity.
  - reflexivity.
  - split; [exact H1|exact H2].
Defined.

(** ** Frames that do not decode (C6) *)

(** C6, as the specification states it, fails in one point: the listener
    does not catch what [JSON.parse] throws. The [SyntaxError] leaves the
    listener, uncaught. *)
Lemma undecodable_frame_throws :
  on_message Undecodable start = (Throw SyntaxError, start) ∧
  ¬ (∃ w', on_message Undecodable start = (Normal tt, w')) ∧
  uncaught (host (dispatch start (SocketEmits 0 (message Undecodable)))) = 1%nat.
Proof. split; [done|]. split; [by intros [w' ?]|done]. Qed.

(** C6, amended. For every frame that does not decode, the message listener
    ends at [JSON.parse] with the [SyntaxError], which it does not catch,
    before it has touched anything: the item collection, the buffer and the
    connection state are unchanged, nothing is called or scheduled, and the
    next frame is handled as if the undecodable one had not come. *)
Theorem undecodable_frame_changes_nothing (w : World) (id : nat) (f : Frame) :
  (id < sockets (host w))%nat →
  let w' := dispatch w (SocketEmits id (message Undecodable)) in
  on_message Undecodable w = (Throw SyntaxError, w) ∧
  page w' = page w ∧
  host w' =
    mkHost (sockets (host w)) (timers (host w)) (timeouts (host w))
      (probes (host w)) (fetches (host w)) (removeAuthToken_calls (host w))
      (verifyFrontendHash_calls (host w)) (S (uncaught (host w))) ∧
  page (dispatch w' (SocketEmits id (message f))) =
    page (dispatch w (SocketEmits id (message f))).
Proof.
  intros Hid w'. subst w'. rewrite !dispatch_socket by done.
  split; [done|]. split; [done|]. split; [done|].
  destruct_world w. by destruct f.
Qed.

Lemma undecodable_frame_changes_nothing_witness :
  let d := mkDelta None (Some [("a.jpg", 3%Z)]) in
  let w := dispatch start (SocketEmits 0 (message (Json d))) in
  page (dispatch w (SocketEmits 0 (message Undecodable))) = page w.
Proof.
  cbv zeta.
  refine (proj1 (proj2 (undecodable_frame_changes_nothing _ 0 Undecodable _))).
  vm_compute. lia.
Defined.

(** ** The keepalive loop (C7) *)

(** C7, as the specification states it, fails. The keepalive timer set by
    the [open] listener is still pending after the [close]; when it expires
    it issues a probe although the page is not connected. The script cancels
    no timer and has no teardown path. *)
Lemma keepalive_timer_survives_close :
  let w := run start [SocketEmits 0 open; SocketEmits 0 close] in
  connected (page w) = false ∧
  timers (host w) = [mkTimer KeepaliveTick 60000] ∧
  fetches (host w) = 1%nat ∧
  let w' := dispatch w (TimerExpires 0) in
  connected (page w') = false ∧
  fetches (host w') = 2%nat ∧
  fetches (host w') ≠ fetches (host w) ∧
  probes (host w') = [AfterDisconnect; AfterKeepalive].
Proof. vm_compute. repeat split; discriminate. Qed.

(** C7, amended. Once the page is not connected the keepalive loop does not
    re-arm: [scheduleKeepalive] sets a timer only while [connected] holds,
    and the completion of a keepalive probe sets the next timer only if the
    probe was not a 401 and the page is connected at that time. A keepalive
    timer that is pending when the connection closes is not cancelled (the
    [close] and [error] listeners leave the timers as they are): when it
    expires it issues one more probe, connected or not. The script has no
    teardown path. *)
Theorem keepalive_rearms_only_while_connected
    (wa : World) (w : World) (id : nat) (e : SocketEvent)
    (w1 : World) (i : nat) (ms : Z) (w2 : World) (j : nat) (o : FetchOutcome) :
  (id < sockets (host w))%nat → is_disconnect e →
  timers (host w1) !! i = Some (mkTimer KeepaliveTick ms) →
  probes (host w2) !! j = Some AfterKeepalive →
  (connected (page wa) = false → scheduleKeepalive wa = (Normal tt, wa)) ∧
  timers (host (dispatch w (SocketEmits id e))) = timers (host w) ∧
  (let w1' := dispatch w1 (TimerExpires i) in
   fetches (host w1') = S (fetches (host w1)) ∧
   probes (host w1') = probes (host w1) ++ [AfterKeepalive] ∧
   timers (host w1') = delete i (timers (host w1))) ∧
  (let w2' := dispatch w2 (FetchSettles j o) in
   fetches (host w2') = fetches (host w2) ∧
   timers (host w2') =
     timers (host w2) ++
       match liveness o with
       | Unauthorized => []
       | Authorized | Unknown =>
           if connected (page w2) then [mkTimer KeepaliveTick keepaliveInterval]
           else []
       end).
Proof.
  intros Hid He Hi Hj. split; [|split; [|split]].
  - intros Hc. destruct_world wa. script_simpl. by subst.
  - by rewrite disconnect_event_effect.
  - by rewrite (keepalive_expiry_effect _ _ _ Hi).
  - rewrite settle_after_keepalive by done. destruct_world w2.
    destruct (liveness o); script_simpl; rewrite ?app_nil_r; try done;
      destruct connected0; script_simpl; by rewrite ?app_nil_r.
Qed.

Lemma keepalive_rearms_only_while_connected_witness :
  let w := run start [SocketEmits 0 open; SocketEmits 0 close;
                      TimerExpires 0; FetchSettles 0 Rejected] in
  timers (host (dispatch w (FetchSettles 0 (Response 200)))) =
    [mkTimer ReconnectAttempt 500].
Proof.
  pose proof (keepalive_rearms_only_while_connected start start 0 close
    (dispatch start (SocketEmits 0 open)) 0 60000
    (run start [SocketEmits 0 open; SocketEmits 0 close;
                TimerExpires 0; FetchSettles 0 Rejected]) 0 (Response 200)) as H.
  destruct H as (_ & _ & _ & _ & H).
  - vm_compute. lia.
  - by left.
  - reflexivity.
  - reflexivity.
  - exact H.
Defined.

(** ** Replaced connections (C8) *)

(** C8, as the specification states it, fails. Socket 1 opens; the probe of
    the [close] that followed the [error] of socket 0 settles late and
    brings a second reconnect, socket 2. Socket 1 is replaced, not closed,
    and its listeners are attached: a frame it delivers changes the
    collection, a late [close] of socket 0 changes the connection state and
    starts a probe, a late [open] changes the backoff state. *)
Lemma replaced_socket_still_heard :
  let w := run start
    [SocketEmits 0 error; SocketEmits 0 close; FetchSettles 0 Rejected;
     TimerExpires 0; SocketEmits 1 open; FetchSettles 0 Rejected;
     TimerExpires 1] in
  let d := mkDelta None (Some [("a.jpg", 3%Z)]) in
  ws (page w) = Some 2%nat ∧
  images (page w) = [] ∧ connected (page w) = true ∧
  reconnectTimeout (page w) = 1000%Z ∧
  images (page (dispatch w (SocketEmits 1 (message (Json d))))) =
    [mkItem "a.jpg" 3] ∧
  dispatch w (SocketEmits 1 (message (Json d))) ≠ w ∧
  connected (page (dispatch w (SocketEmits 0 close))) = false ∧
  fetches (host (dispatch w (SocketEmits 0 close))) = S (fetches (host w)) ∧
  reconnectTimeout (page (dispatch w (SocketEmits 1 open))) = 500%Z.
Proof. vm_compute. repeat split; discriminate. Qed.

(** C8, amended. The page detaches no listener and closes no socket: every
    socket built so far, the current one or a replaced one, goes on
    delivering its events to the same four listeners, which act on the
    variables of the page whatever socket the event comes from. A late
    event of a replaced connection does what the same event of the current
    connection does. *)
Theorem listeners_never_detached
    (w : World) (old cur : nat) (e : SocketEvent) (evs : list Event) :
  (old < sockets (host w))%nat → (cur < sockets (host w))%nat →
  dispatch w (SocketEmits old e) = dispatch w (SocketEmits cur e) ∧
  dispatch w (SocketEmits old e) = deliver (listener e) w ∧
  (old < sockets (host (run w evs)))%nat ∧
  dispatch (run w evs) (SocketEmits old e) = deliver (listener e) (run w evs).
Proof.
  intros Hold Hcur.
  assert (old < sockets (host (run w evs)))%nat as Hlater.
  { clear Hcur. revert w Hold. induction evs as [|ev evs IH]; intros w Hold; [done|].
    simpl. apply IH. rewrite sockets_dispatch.
    destruct ev as [| i |]; try done.
    destruct (timers (host w) !! i) as [[[] ?]|]; lia. }
  by rewrite !dispatch_socket.
Qed.

Lemma listeners_never_detached_witness :
  let w := run start
    [SocketEmits 0 close; FetchSettles 0 Rejected; TimerExpires 0] in
  let d := mkDelta None (Some [("a.jpg", 3%Z)]) in
  dispatch w (SocketEmits 0 (message (Json d))) =
    dispatch w (SocketEmits (current_socket w) (message (Json d))).
Proof.
  cbv zeta.
  refine (proj1 (listeners_never_detached _ 0 _ _ [] _ _)).
  - vm_compute. lia.
  - vm_compute. lia.
Defined.

(** ** The liveness probe (C9) *)

(** C9. The liveness probe is total: [keepalive()] issues its fetch and
    returns, and its promise resolves (to the status, or to [null] when the
    transport fails) whatever the fetch does; it never throws. Its two
    callers act on the three outcomes as the specification says: on 401
    ([Unauthorized]) the session is terminated, on 200 ([Authorized]) and on
    anything else ([Unknown]) the script goes on (to the reconnect, or to the
    next keepalive). *)
Theorem probe_total_three_outcomes (o : FetchOutcome) (k : Continuation) (w : World) :
  (∃ w', keepalive k w = (Normal tt, w')) ∧
  (∃ result,
     keepalive_result o = Normal result ∧
     result = match o with Response status => Some status | Rejected => None end ∧
     continuation AfterDisconnect result =
       match liveness o with
       | Unauthorized => removeAuthToken
       | Authorized | Unknown => scheduleReconnect
       end ∧
     continuation AfterKeepalive result =
       match liveness o with
       | Unauthorized => removeAuthToken
       | Authorized | Unknown => scheduleKeepalive
       end) ∧
  liveness (Response 200) = Authorized ∧
  liveness (Response 401) = Unauthorized ∧
  (o ≠ Response 200 ∧ o ≠ Response 401 ↔ liveness o = Unknown).
Proof.
  split; [by eexists|]. split; [|split; [done|split; [done|]]].
  - destruct o as [status|]; eexists; (split; [reflexivity|]); (split; [done|]);
      simpl; [|done].
    repeat case_bool_decide; simplify_eq; done.
  - destruct o as [status|]; simpl; [|by intuition].
    repeat case_bool_decide; subst; intuition congruence.
Qed.

(** ** What the [open] listener leaves alone (C10) *)



(** * Further properties of the code *)

(** ** More on the item buffer *)

Section ItemStoreMore.
Implicit Types (img x : Item) (l buf : list Item) (d : Delta).

Lemma scan_spec img buf :
  Forall (λ x, (timestamp x > timestamp img)%Z) (take (scan img buf) buf) ∧
  (∀ y, head (drop (scan img buf) buf) = Some y →
        (timestamp y ≤ timestamp img)%Z).
Proof.
  induction buf as [|x buf [IH1 IH2]]; simpl.
  - split; [constructor|done].
  - case_bool_decide; simpl.
    + split; [by constructor|done].
    + split; [constructor|]. intros y [= ->]. lia.
Qed.

(** X1. Where [insertSorted] puts the item: behind every leading item with
    a strictly greater timestamp and before the first item whose timestamp
    is not greater; of items with the same timestamp the one inserted last
    comes first. *)
Theorem insertSorted_position img buf :
  ∃ before after,
    buf = before ++ after ∧
    insertSorted img buf = before ++ img :: after ∧
    Forall (λ x, (timestamp x > timestamp img)%Z) before ∧
    (∀ y, head after = Some y → (timestamp y ≤ timestamp img)%Z).
Proof.
  exists (take (scan img buf) buf), (drop (scan img buf) buf).
  split; [by rewrite take_drop|]. split; [done|]. apply scan_spec.
Qed.

(** X2. [insertSorted] loses and reorders nothing: the buffer is a sublist
    of the result, which is one item longer and holds the new item, whether
    the buffer was sorted or not. *)
Theorem insertSorted_keeps_buffer img buf :
  buf `sublist_of` insertSorted img buf ∧
  length (insertSorted img buf) = S (length buf) ∧
  img ∈ insertSorted img buf.
Proof.
  split; [|split].
  - unfold insertSorted. rewrite <- (take_drop (scan img buf) buf) at 1.
    apply sublist_app; [done|]. by apply sublist_cons.
  - by rewrite insertSorted_perm.
  - apply elem_of_insertSorted. by left.
Qed.

Lemma insertSorted_comm a b l :
  timestamp a ≠ timestamp b →
  insertSorted a (insertSorted b l) = insertSorted b (insertSorted a l).
Proof.
  intros Hab. induction l as [|x l IH].
  - rewrite !insertSorted_nil, !insertSorted_cons.
    repeat case_bool_decide; try done; lia.
  - rewrite !(insertSorted_cons _ x).
    repeat case_bool_decide; rewrite ?insertSorted_cons;
      repeat case_bool_decide; try lia; try done.
    by rewrite IH.
Qed.

Lemma foldl_insert_perm (adds adds' : list (string * Z)) :
  adds ≡ₚ adds' → NoDup (adds.*2) →
  ∀ buf, apply_added (Some adds) buf = apply_added (Some adds') buf.
Proof.
  unfold apply_added. simpl.
  induction 1 as [|[n ts] adds adds' Hp IH|[n1 ts1] [n2 ts2] adds
                 |adds1 adds2 adds3 Hp1 IH1 Hp2 IH2]; intros Hnd buf; simpl.
  - done.
  - apply IH. by inversion Hnd.
  - f_equal. apply insertSorted_comm. simpl.
    simpl in Hnd. apply NoDup_cons in Hnd as [Hin _].
    intros ->. apply Hin. by left.
  - rewrite IH1 by done. apply IH2. by rewrite <- Hp1.
Qed.

(** X3. When the timestamps a message adds differ from each other, the
    order of the entries in [added] does not matter: any rearrangement of
    them leaves the same buffer, whatever the buffer was. *)
Theorem added_order_irrelevant (adds adds' : list (string * Z)) buf :
  adds ≡ₚ adds' → NoDup (adds.*2) →
  apply_added (Some adds) buf = apply_added (Some adds') buf.
Proof. intros Hp Hnd. by apply foldl_insert_perm. Qed.

Lemma added_order_irrelevant_witness :
  apply_added (Some [("b.jpg", 1%Z); ("a.jpg", 3%Z); ("c.jpg", 2%Z)])
              [mkItem "d.jpg" 2] =
  apply_added (Some [("a.jpg", 3%Z); ("b.jpg", 1%Z); ("c.jpg", 2%Z)])
              [mkItem "d.jpg" 2].
Proof.
  apply added_order_irrelevant.
  - apply Permutation_swap.
  - apply (bool_decide_unpack _). vm_compute. exact I.
Defined.

Lemma timestamp_inj_on l x y :
  NoDup (timestamp <$> l) → x ∈ l → y ∈ l → timestamp x = timestamp y → x = y.
Proof.
  induction l as [|z l IH]; simpl; [by intros _ ?%elem_of_nil|].
  rewrite NoDup_cons, !elem_of_cons, list_elem_of_fmap.
  intros [Hz Hl] [->|Hx] [->|Hy] Heq; try done.
  - destruct Hz. by exists y.
  - destruct Hz. by exists x.
  - by apply IH.
Qed.

Lemma sorted_distinct_unique l1 l2 :
  l1 ≡ₚ l2 → Sorted desc l1 → Sorted desc l2 →
  NoDup (timestamp <$> l1) → l1 = l2.
Proof.
  intros Hp H1 H2 Hnd.
  apply (Sorted_unique_strong desc); try done.
  intros x y Hx Hy Hxy Hyx. apply (timestamp_inj_on l1); try done.
  - by rewrite Hp.
  - unfold desc in *. lia.
Qed.

(** X4. With timestamps that differ from each other the buffer depends on
    what it holds only, not on how it came to hold it: two sequences of
    messages that leave the same items leave them in the same order. *)
Theorem buffer_determined_by_content (ds1 ds2 : list Delta) :
  apply_deltas ds1 [] ≡ₚ apply_deltas ds2 [] →
  NoDup (timestamp <$> apply_deltas ds1 []) →
  apply_deltas ds1 [] = apply_deltas ds2 [].
Proof.
  intros Hp Hnd.
  apply sorted_distinct_unique; try done; apply Sorted_apply_deltas; constructor.
Qed.

Lemma buffer_determined_by_content_witness :
  apply_deltas [mkDelta None (Some [("a.jpg", 3%Z)]);
                mkDelta None (Some [("x.jpg", 9%Z); ("b.jpg", 1%Z)]);
                mkDelta (Some ["x.jpg"]) None] [] =
  apply_deltas [mkDelta None (Some [("b.jpg", 1%Z); ("a.jpg", 3%Z)])] [].
Proof.
  apply buffer_determined_by_content.
  - vm_compute. done.
  - apply (bool_decide_unpack _). vm_compute. exact I.
Defined.

(** X5. Removing names that are not in the buffer changes nothing. *)
Theorem remove_absent_names (rs : list string) buf :
  (∀ n, n ∈ rs → n ∉ names buf) → apply_removed (Some rs) buf = buf.
Proof.
  intros Habs. simpl. induction buf as [|x buf IH]; [done|].
  rewrite filter_cons. rewrite decide_True.
  - f_equal. apply IH. intros n Hn Hin. apply (Habs n Hn). by right.
  - rewrite elem_of_list_to_set. intros Hx. apply (Habs _ Hx). by left.
Qed.

Lemma remove_absent_names_witness :
  apply_removed (Some ["z.jpg"; "y.jpg"]) [mkItem "a.jpg" 3; mkItem "b.jpg" 1] =
    [mkItem "a.jpg" 3; mkItem "b.jpg" 1].
Proof.
  apply remove_absent_names. apply Forall_forall.
  apply (bool_decide_unpack _). vm_compute. exact I.
Defined.

(** X6. Two removals in a row are the removal of both lists at once;
    so a removal done twice is the removal done once. *)
Theorem removals_compose (rs1 rs2 : list string) buf :
  apply_removed (Some rs2) (apply_removed (Some rs1) buf) =
    apply_removed (Some (rs1 ++ rs2)) buf ∧
  apply_removed (Some rs1) (apply_removed (Some rs1) buf) =
    apply_removed (Some rs1) buf.
Proof.
  simpl. split.
  - rewrite list_filter_filter. apply list_filter_iff. intros x.
    rewrite !elem_of_list_to_set, elem_of_app. tauto.
  - apply list_filter_filter_l. done.
Qed.

(** X7. The replacement the page supports: for a name that a message lists
    in [removed], the items of that name in the buffer afterwards are the
    ones the same message adds under it, whatever the buffer held. *)
Theorem removed_name_replaced (n : string) (rs : list string) a buf :
  n ∈ rs →
  filter (λ x, name x = n) (apply_delta (mkDelta (Some rs) a) buf) ≡ₚ
    filter (λ x, name x = n) (added_items (mkDelta (Some rs) a)).
Proof.
  intros Hn. rewrite apply_delta_perm, filter_app.
  replace (filter (λ x, name x = n) (apply_removed _ buf)) with (@nil Item);
    [by rewrite app_nil_r|].
  symmetry. simpl. induction buf as [|x buf IH]; [done|].
  rewrite filter_cons. case_decide as Hx; [|done].
  rewrite filter_cons. case_decide; [|done].
  subst n. by rewrite elem_of_list_to_set in Hx.
Qed.

Lemma removed_name_replaced_witness :
  filter (λ x, name x = "a.jpg")
    (apply_delta (mkDelta (Some ["a.jpg"]) (Some [("a.jpg", 5%Z)]))
       [mkItem "a.jpg" 3; mkItem "b.jpg" 1]) ≡ₚ
  [mkItem "a.jpg" 5].
Proof.
  refine (removed_name_replaced "a.jpg" ["a.jpg"] (Some [("a.jpg", 5%Z)])
            [mkItem "a.jpg" 3; mkItem "b.jpg" 1] _).
  by left.
Defined.

End ItemStoreMore.

(** ** More on the page and its connection *)

Lemma filter_delete_length {A} (P : A → Prop) `{∀ x, Decision (P x)} l i x :
  l !! i = Some x →
  length (filter P l) =
    (length (filter P (delete i l)) + if decide (P x) then 1 else 0)%nat.
Proof.
  intros Hi. rewrite <- (take_drop_middle l i x Hi) at 1.
  rewrite delete_take_drop, !filter_app, filter_cons.
  case_decide; rewrite !length_app; simpl; lia.
Qed.

(** X8. The rendered list lags the buffer only after an [open]: after any
    sequence of events in which every frame either does not decode or is on
    the inbound schema (the frames of [Frame]), [images] is the buffer
    [dummy_images], or the buffer is empty (emptied by an [open] and not yet
    filled by a frame). A frame that decodes off the schema can stop the
    listener between its two assignments and is not covered. *)
Theorem rendered_list_is_buffer_or_buffer_empty (evs : list Event) :
  let w := run start evs in
  dummy_images (page w) = images (page w) ∨ dummy_images (page w) = [].
Proof.
  cbv zeta. apply (reachable_ind (λ w,
    dummy_images (page w) = images (page w) ∨ dummy_images (page w) = []));
    [by left| |by eexists].
  intros w ev _ Hw. dispatch_cases w ev; auto.
Qed.

(** X9. The reconnect delay stays within its bounds: whenever the page is
    observed it is 500, 1000, 2000 or 3000 ms, and every [setTimeout] the
    page has made was a keepalive after 60000 ms or a reconnect after one of
    these delays. *)
Theorem delays_within_bounds (evs : list Event) :
  let w := run start evs in
  backoff_delay (reconnectTimeout (page w)) ∧
  (500 ≤ reconnectTimeout (page w) ≤ 3000)%Z ∧
  Forall timer_as_set (timeouts (host w)).
Proof.
  cbv zeta.
  assert (∀ w, reachable w →
    backoff_delay (reconnectTimeout (page w)) ∧
    Forall timer_as_set (timeouts (host w))) as Hinv.
  { apply reachable_ind.
    - split; [by left|constructor].
    - intros w ev _ [Hrt Hto]. unfold backoff_delay in *.
      dispatch_cases w ev; rewrite ?Forall_app, ?Forall_singleton;
        unfold timer_as_set, backoff_delay, maxReconnectTimeout; simpl;
        repeat split; auto; lia. }
  destruct (Hinv (run start evs)) as [Hrt Hto]; [by eexists|].
  split; [done|]. split; [|done]. unfold backoff_delay in Hrt. lia.
Qed.

(** X10. Connections are made by the start of the page and by reconnect
    timers, and by nothing else: whenever the page is observed, [ws] holds
    the socket built last, and the number of sockets built is one more than
    the reconnect timers that have expired (those set less those pending). *)
Theorem sockets_accounting (evs : list Event) :
  let w := run start evs in
  ws (page w) = Some (pred (sockets (host w))) ∧
  (sockets (host w) + length (reconnects (timers (host w))) =
     1 + length (reconnects (timeouts (host w))))%nat.
Proof.
  cbv zeta. apply (reachable_ind (λ w,
    ws (page w) = Some (pred (sockets (host w))) ∧
    (sockets (host w) + length (reconnects (timers (host w))) =
       1 + length (reconnects (timeouts (host w))))%nat));
    [done| |by eexists].
  intros w ev _ [Hws Hn]. dispatch_cases w ev;
    try (apply (filter_delete_length is_reconnect) in Hi; simpl in Hi);
    rewrite ?reconnects_snoc, ?length_app; simpl; unfold reconnects in *;
    split; auto; lia.
Qed.

(** X11. Every sign-out answers a probe: whenever the page is observed, the
    calls of [removeAuthToken] and the probes still in flight are together
    no more than the probes made. *)
Theorem signouts_bounded_by_probes (evs : list Event) :
  let w := run start evs in
  (removeAuthToken_calls (host w) + length (probes (host w)) ≤
     fetches (host w))%nat.
Proof.
  cbv zeta. apply (reachable_ind (λ w,
    (removeAuthToken_calls (host w) + length (probes (host w)) ≤
       fetches (host w))%nat)); [done| |by eexists].
  intros w ev _ Hw. dispatch_cases w ev;
    try (assert (is_Some (probes0 !! i)) as Hd%length_delete by (by eexists));
    rewrite ?length_app; simpl; try lia;
    apply lookup_lt_Some in Hi; lia.
Qed.

Lemma removeAuthToken_needs_401 w ev :
  answers_401 ev = false →
  removeAuthToken_calls (host (dispatch w ev)) = removeAuthToken_calls (host w).
Proof.
  intros Hev. dispatch_cases w ev; try done;
    simpl in Hev; apply bool_decide_eq_false in Hev; congruence.
Qed.

(** X12. The page signs the user out on a 401 and on nothing else: through
    any events among which no keepalive fetch is answered with status 401,
    [removeAuthToken] is not called, whatever else closes, fails or times
    out. *)
Theorem no_401_no_signout (w : World) (evs : list Event) :
  forallb (λ ev, negb (answers_401 ev)) evs = true →
  removeAuthToken_calls (host (run w evs)) = removeAuthToken_calls (host w).
Proof.
  revert w. induction evs as [|ev evs IH]; intros w Hevs; [done|].
  simpl in Hevs. apply andb_prop in Hevs as [Hev%negb_true_iff Hevs].
  simpl. rewrite IH by done. by apply removeAuthToken_needs_401.
Qed.

Lemma no_401_no_signout_witness :
  removeAuthToken_calls (host (run start
    [SocketEmits 0 open; SocketEmits 0 error; SocketEmits 0 close;
     FetchSettles 0 Rejected; FetchSettles 0 (Response 500);
     TimerExpires 0; FetchSettles 0 (Response 403)])) = 0%nat.
Proof. by apply (no_401_no_signout start). Defined.

(** X13. Keepalive loops are started by [open] events only: whenever the
    page is observed, the keepalive timers pending and the keepalive probes
    in flight are together no more than the [open] events handled (each of
    which calls [verifyFrontendHash] once). *)
Theorem keepalive_loops_bounded_by_opens (evs : list Event) :
  let w := run start evs in
  (length (filter is_keepalive (timers (host w))) +
   length (filter (λ k, k = AfterKeepalive) (probes (host w))) ≤
     verifyFrontendHash_calls (host w))%nat.
Proof.
  cbv zeta. apply (reachable_ind (λ w,
    (length (filter is_keepalive (timers (host w))) +
     length (filter (λ k, k = AfterKeepalive) (probes (host w))) ≤
       verifyFrontendHash_calls (host w))%nat)); [done| |by eexists].
  intros w ev _ Hw. dispatch_cases w ev;
    try (apply (filter_delete_length is_keepalive) in Hi; simpl in Hi);
    try (apply (filter_delete_length (λ k, k = AfterKeepalive)) in Hi;
         simpl in Hi);
    rewrite ?filter_app, ?length_app; simpl; lia.
Qed.

(** ** The grid *)

(** X14. The grid has one, two or three columns whatever the device reports
    (so that exactly one of the three [grid-cols] classes is set); turning a
    device to landscape never takes a column away and adds at most one; a
    device that is neither a mobile nor a tablet gets three. *)
Theorem grid_columns_range (type orientation : string) :
  (1 ≤ grid_columns type orientation ≤ 3)%Z ∧
  (grid_columns type orientation ≤ grid_columns type "landscape"
     ≤ grid_columns type orientation + 1)%Z ∧
  (type ≠ "mobile" → type ≠ "tablet" → grid_columns type orientation = 3%Z).
Proof.
  unfold grid_columns.
  repeat case_decide; repeat split; try lia; try done; intros; done.
Qed.

(** ** The router *)

Lemma find_current_Some (l : list string) (cur : option string) r :
  List.find (λ route, bool_decide (Some route = cur)) l = Some r →
  cur = Some r ∧ r ∈ l.
Proof.
  intros [Hin Heq]%find_some. apply bool_decide_eq_true in Heq.
  split; [done|]. by apply list_elem_of_In.
Qed.

Lemma find_current_None (l : list string) (cur : option string) r :
  List.find (λ route, bool_decide (Some route = cur)) l = None →
  cur = Some r → r ∉ l.
Proof.
  intros Hnone -> Hin%list_elem_of_In.
  apply (find_none _ _ Hnone) in Hin. by apply bool_decide_eq_false in Hin.
Qed.

Lemma find_current_known (l : list string) r :
  r ∈ l → List.find (λ route, bool_decide (Some route = Some r)) l = Some r.
Proof.
  induction l as [|x l IH]; [by intros ?%elem_of_nil|].
  intros Hin. simpl. case_bool_decide as Hx; [congruence|].
  apply IH. apply elem_of_cons in Hin as [->|]; [done|done].
Qed.

Lemma truthy_Some r : Router.truthy (Some r) = true ↔ r ≠ "".
Proof.
  simpl. rewrite negb_true_iff. split.
  - intros H ->. by rewrite String.eqb_refl in H.
  - intros H. by apply String.eqb_neq.
Qed.

Lemma selectedRoute_known (st : Router.State) r :
  r ∈ Router.knownRoutes st → r ≠ "" →
  Router.selectedRoute st (Some r) = Some r.
Proof.
  intros Hin Hne. unfold Router.selectedRoute.
  rewrite find_current_known by done.
  by rewrite (proj2 (truthy_Some r) Hne).
Qed.

Lemma selectedRoute_cases (st : Router.State) (cur : option string) :
  (∃ r, cur = Some r ∧ r ∈ Router.knownRoutes st ∧ r ≠ "") ∨
  Router.selectedRoute st cur = Router.defaultRoute st.
Proof.
  unfold Router.selectedRoute.
  destruct (List.find _ _) as [r|] eqn:Hfind; [|by right].
  apply find_current_Some in Hfind as [-> Hin].
  destruct (Router.truthy (Some r)) eqn:Hr; [|by right].
  left. exists r. by rewrite <- truthy_Some.
Qed.

Lemma selectedRoute_default (st : Router.State) :
  Router.selectedRoute st (Router.defaultRoute st) = Router.defaultRoute st.
Proof.
  destruct (selectedRoute_cases st (Router.defaultRoute st))
    as [(r & Hr & Hin & Hne)|]; [|done].
  rewrite Hr. by apply selectedRoute_known.
Qed.

Lemma selectedRoute_idemp (st : Router.State) (cur : option string) :
  Router.selectedRoute st (Router.selectedRoute st cur) =
    Router.selectedRoute st cur.
Proof.
  destruct (selectedRoute_cases st cur) as [(r & -> & Hin & Hne)|Hd].
  - by rewrite !selectedRoute_known.
  - rewrite Hd. apply selectedRoute_default.
Qed.

(** X15. The route the router selects: the current path when it is a
    registered route that is not the empty string, and the default route in
    every other case (a path that is not registered, an empty path, no path);
    without a default that is [null]. *)
Theorem selectedRoute_known_or_default (st : Router.State) (cur : option string) :
  (∀ r, cur = Some r → r ∈ Router.knownRoutes st → r ≠ "" →
        Router.selectedRoute st cur = cur) ∧
  ((∀ r, cur = Some r → r ∈ Router.knownRoutes st → r = "") →
   Router.selectedRoute st cur = Router.defaultRoute st).
Proof.
  split.
  - intros r -> Hin Hne. by apply selectedRoute_known.
  - intros Hcur.
    destruct (selectedRoute_cases st cur) as [(r & Hr & Hin & Hne)|]; [|done].
    by destruct (Hne (Hcur r Hr Hin)).
Qed.

Lemma router_calls_effect (cs : list Router.Call) : ∀ st,
  Router.truthy (Router.defaultRoute st) = true →
  Router.defaultRoute (Router.calls st cs) = Router.defaultRoute st ∧
  Router.knownRoutes st `prefix_of` Router.knownRoutes (Router.calls st cs).
Proof.
  induction cs as [|c cs IH]; intros st Hd; [done|].
  simpl. destruct c as [route|route]; simpl.
  - destruct (IH (Router.registerRoute route st) Hd) as [Hd' Hk].
    split; [done|]. etrans; [|done]. by apply prefix_app_r.
  - unfold Router.setDefaultRoute. rewrite Hd. by apply IH.
Qed.

(** X21. The default route is set once: when a default that is not the
    empty string is set, whatever routes are registered and defaults are
    set afterwards, the default stays, a further [setDefaultRoute] throws
    "Default route already set", the routes registered before stay
    registered in their order, and a current path that was selected (a
    registered route that is not the empty string) stays selected. *)
Theorem default_route_set_once
    (st : Router.State) (cs : list Router.Call) (route r : string) :
  Router.truthy (Router.defaultRoute st) = true →
  let st' := Router.calls st cs in
  Router.defaultRoute st' = Router.defaultRoute st ∧
  Router.setDefaultRoute route st' = Router.Error "Default route already set" ∧
  Router.knownRoutes st `prefix_of` Router.knownRoutes st' ∧
  (r ∈ Router.knownRoutes st → r ≠ "" →
   Router.selectedRoute st' (Some r) = Some r).
Proof.
  intros Hd. cbv zeta.
  destruct (router_calls_effect cs st Hd) as [Hd' Hk].
  split; [done|]. split; [|split; [done|]].
  - unfold Router.setDefaultRoute. by rewrite Hd', Hd.
  - intros Hr Hne. apply selectedRoute_known; [|done].
    destruct Hk as [k ->]. apply elem_of_app. by left.
Qed.

Lemma default_route_set_once_witness :
  let st := Router.calls Router.initial
    [Router.RegisterRoute "/images"; Router.SetDefaultRoute "/images"] in
  let st' := Router.calls st
    [Router.RegisterRoute "/login"; Router.SetDefaultRoute "/login"] in
  Router.defaultRoute st' = Some "/images" ∧
  Router.selectedRoute st' (Some "/images") = Some "/images".
Proof.
  cbv zeta.
  pose proof (default_route_set_once
    (Router.calls Router.initial
       [Router.RegisterRoute "/images"; Router.SetDefaultRoute "/images"])
    [Router.RegisterRoute "/login"; Router.SetDefaultRoute "/login"]
    "/other" "/images") as H.
  destruct H as (H1 & _ & _ & H2); [reflexivity|].
  split; [exact H1|]. apply H2; [by left|discriminate].
Defined.

(** X16. Routing settles after one navigation at most: the effect of the
    router, run in the app, leaves the app on the selected route, with at
    most one entry pushed to the history and the token untouched, and run
    again it does nothing. *)
Theorem routing_settles (r : Router.State) (st : App.State) :
  let st' := App.route r st in
  App.currentRoute st' = Router.selectedRoute r (App.currentRoute st) ∧
  App.route r st' = st' ∧
  (length (App.pushed st') ≤ S (length (App.pushed st)))%nat ∧
  App.authToken st' = App.authToken st ∧
  App.localStorage st' = App.localStorage st.
Proof.
  cbv zeta.
  assert (App.currentRoute (App.route r st) =
            Router.selectedRoute r (App.currentRoute st)) as Hcur.
  { unfold App.route, Router.effect. case_decide as H; [done|].
    simpl. symmetry. by destruct (decide (Router.selectedRoute r (App.currentRoute st) = App.currentRoute st)). }
  split; [done|]. split.
  - unfold App.route at 1, Router.effect. rewrite Hcur, selectedRoute_idemp.
    by rewrite decide_False by (by intros ?).
  - unfold App.route, Router.effect. case_decide; simpl;
      rewrite ?length_app; simpl; repeat split; lia.
Qed.

(** ** The app and the login page *)

(** X17. The token in memory and the token in [localStorage] never part:
    after any calls of [setAuthToken], [removeAuthToken] and [navigate] on a
    page loaded with any storage, [authToken] is what [localStorage] holds
    under ["auth_token"] ([null] when it holds nothing), the other keys of
    the storage are as they were, and a reload of the page finds the same
    token. *)
Theorem token_mirrors_storage
    (storage : gmap string string) (pathname pathname' : string)
    (cs : list App.Call) (k : string) :
  let st := App.calls (App.load storage pathname) cs in
  App.authToken st = App.localStorage st !! "auth_token" ∧
  (k ≠ "auth_token" → App.localStorage st !! k = storage !! k) ∧
  App.authToken (App.load (App.localStorage st) pathname') = App.authToken st.
Proof.
  cbv zeta.
  assert (∀ st, App.authToken st = App.localStorage st !! "auth_token" →
          (k ≠ "auth_token" → App.localStorage st !! k = storage !! k) →
          let st' := App.calls st cs in
          App.authToken st' = App.localStorage st' !! "auth_token" ∧
          (k ≠ "auth_token" → App.localStorage st' !! k = storage !! k)) as Hinv.
  { induction cs as [|c cs IH]; intros st Htok Hkeys; [done|].
    simpl. apply IH; destruct c; simpl; try done.
    - by rewrite lookup_insert_eq.
    - by rewrite lookup_delete_eq.
    - intros Hk. rewrite lookup_insert_ne by done. auto.
    - intros Hk. rewrite lookup_delete_ne by done. auto. }
  destruct (Hinv (App.load storage pathname)) as [Htok Hkeys]; [done..|].
  split; [done|]. split; [done|]. by rewrite Htok.
Qed.

(** X18. A login sets the token exactly when the backend answers with
    status 200 and the body can be read: the body becomes the token, in
    memory and in the storage, and the app goes to [/images]. On any other
    status, on a transport error and on a body that cannot be read nothing
    changes. *)
Theorem login_sets_token_on_200_only (o : Login.LoginFetch) (st : App.State) :
  (∀ body, o = Login.Responded 200 (Some body) →
     let st' := Login.handleLogin o st in
     App.authToken st' = Some body ∧
     App.localStorage st' !! "auth_token" = Some body ∧
     App.currentRoute st' = Some "/images") ∧
  ((∀ body, o ≠ Login.Responded 200 (Some body)) →
     Login.getToken o = Normal None ∧ Login.handleLogin o st = st).
Proof.
  split.
  - intros body ->. cbv zeta. unfold Login.handleLogin. simpl.
    by rewrite lookup_insert_eq.
  - intros Ho. unfold Login.handleLogin.
    destruct o as [|status [body|]]; try done.
    unfold Login.getToken. simpl. case_bool_decide; [|done].
    subst. by destruct (Ho body).
Qed.

(** ** The image component *)

Ltac image_inv_done :=
  repeat split; intros; simplify_eq; auto; try lia;
  try (by match goal with
          | H : ?a = ?a → Some _ = None |- _ => specialize (H eq_refl)
          end).

Lemma image_fetch_invariant (src : string) (imgElement : bool) (evs : list Image.Event) :
  let st := Image.run (Image.mounted src imgElement) evs in
  Image.src st = src ∧
  (Image.fetches st ≤ 1)%nat ∧
  (Image.observer st = Some true → Image.fetches st = 0%nat) ∧
  (Image.observer st = None → Image.fetches st = 0%nat) ∧
  (imgElement = false → Image.observer st = None) ∧
  (src = "" → Image.fetches st = 0%nat).
Proof.
  cbv zeta. induction evs as [|ev evs IH] using rev_ind.
  - unfold Image.mounted, Image.onMount. simpl.
    destruct imgElement; simpl; image_inv_done.
  - unfold Image.run in *. rewrite foldl_app. simpl.
    destruct (foldl Image.dispatch _ evs) as [s el isrc obs f l rv rt th].
    simpl in IH. destruct IH as (-> & Hle & Htrue & Hnone & Hel & Hsrc).
    destruct ev as [entries|s'|]; simpl.
    + destruct obs as [[]|]; simpl; [|image_inv_done..].
      destruct entries as [|[] entries]; simpl; [image_inv_done| |image_inv_done].
      unfold Image.loadImage. simpl.
      destruct (String.eqb src "") eqn:Hs; simpl; [image_inv_done|].
      rewrite Htrue by done. image_inv_done.
    + case_bool_decide; [|image_inv_done].
      unfold Image.settle. simpl.
      destruct s' as [e|e|url]; simpl; try case_bool_decide; simpl;
        image_inv_done.
    + unfold Image.onDestroy, Image.disconnect. simpl.
      destruct (String.eqb isrc ""), obs as [[]|]; simpl; image_inv_done.
Qed.

(** X19. An image is fetched once at most: through any intersections,
    settlements and destructions of a mounted component, [fetch] is called
    at most once (the observer is disconnected by the first intersection),
    and never when [src] is empty or the element is not there. *)
Theorem image_fetched_at_most_once
    (src : string) (imgElement : bool) (evs : list Image.Event) :
  let st := Image.run (Image.mounted src imgElement) evs in
  (Image.fetches st ≤ 1)%nat ∧
  (src = "" ∨ imgElement = false → Image.fetches st = 0%nat).
Proof.
  cbv zeta.
  destruct (image_fetch_invariant src imgElement evs)
    as (_ & Hle & _ & Hnone & Hel & Hsrc).
  split; [done|]. intros [?|?]; auto.
Qed.

Lemma removeToken_needs_401 (st : Image.State) (ev : Image.Event) :
  Image.rejects_401 ev = false →
  Image.removeToken_calls (Image.dispatch st ev) = Image.removeToken_calls st.
Proof.
  intros Hev. destruct st, ev as [entries|s'|]; simpl.
  - destruct observer as [[]|]; try done.
    destruct entries as [|[] ?]; try done. simpl.
    unfold Image.loadImage. simpl. by destruct (String.eqb src "").
  - case_bool_decide; [|done]. unfold Image.settle.
    destruct s' as [e|e|url]; simpl in *; by rewrite ?Hev.
  - unfold Image.onDestroy. simpl. by destruct (String.eqb imageSrc "").
Qed.

(** X20. The image component calls [removeToken] only when its load is
    rejected with a value whose [status] is 401: through any other events
    (a load that succeeds, also with the body of an error page; a rejection
    without that status) it is not called. *)
Theorem image_removeToken_on_401_rejection_only
    (st : Image.State) (evs : list Image.Event) :
  forallb (λ ev, negb (Image.rejects_401 ev)) evs = true →
  Image.removeToken_calls (Image.run st evs) = Image.removeToken_calls st.
Proof.
  revert st. induction evs as [|ev evs IH]; intros st Hevs; [done|].
  simpl in Hevs. apply andb_prop in Hevs as [Hev%negb_true_iff Hevs].
  simpl. unfold Image.run in IH. rewrite IH by done.
  by apply removeToken_needs_401.
Qed.

Lemma image_removeToken_on_401_rejection_only_witness :
  Image.removeToken_calls (Image.run (Image.mounted "/backend/data/photo.jpg" true)
    [Image.Intersect [false]; Image.Intersect [true];
     Image.Settles (Image.FetchRejected (Image.mkRejection None));
     Image.Destroy]) = 0%nat.
Proof.
  by apply (image_removeToken_on_401_rejection_only
              (Image.mounted "/backend/data/photo.jpg" true)).
Defined.
